(** * Path transformer of google-drive-downloader (pkg/transform, cmd/main.go)

    A shallow embedding of [NewPathTransformer] and [Transform] and of the
    path-rewriting loop of [main].  Go strings are byte sequences, modelled
    as [string] (a list of 8-bit characters).  The [regexp] package is an
    external collaborator: the general results are stated over an abstract
    engine ([RegexpEngine]); a small backtracking engine for a fragment of
    the RE2 syntax instantiates it for the concrete scenarios. *)

From Stdlib Require Import Ascii String.
From stdpp Require Import gmap strings list fin_maps sorting.

(** ** The [strings] package *)

Module strings.

(** [strings.HasPrefix s prefix]. *)
Fixpoint HasPrefix (s prefix : string) {struct prefix} : bool :=
  match prefix, s with
  | EmptyString, _ => true
  | String _ _, EmptyString => false
  | String a prefix', String b s' =>
      if decide (a = b) then HasPrefix s' prefix' else false
  end.

(** [strings.Contains s substr]: [substr] occurs somewhere within [s]. *)
Fixpoint Contains (s substr : string) : bool :=
  HasPrefix s substr ||
  match s with
  | EmptyString => false
  | String _ s' => Contains s' substr
  end.

(** One left-to-right scan of [strings.Replace s old new (-1)] for a
    non-empty [old]: [skip] counts the bytes of the occurrence just
    replaced that are still to be dropped, so occurrences do not overlap
    and the inserted text is never looked at again. *)
Fixpoint replaceScan (skip : nat) (s old new : string) : string :=
  match s with
  | EmptyString => EmptyString
  | String c s' =>
      match skip with
      | S k => replaceScan k s' old new
      | O =>
          if HasPrefix s old
          then new +:+ replaceScan (String.length old - 1) s' old new
          else String c (replaceScan 0 s' old new)
      end
  end.

(** Bytewise rendering of the empty-[old] case of Go's [Replace], which
    inserts [new] at every position.  [Transform] never reaches it: its
    [old] always starts with a dollar sign and a brace. *)
Fixpoint explode (s new : string) : string :=
  match s with
  | EmptyString => new
  | String c s' => new +:+ String c (explode s' new)
  end.

(** [strings.Replace s old new (-1)]: every non-overlapping instance of
    [old] replaced by [new]. *)
Definition Replace (s old new : string) : string :=
  match old with
  | EmptyString => explode s new
  | String _ _ => replaceScan 0 s old new
  end.

End strings.

(** ** Errors *)

(** The five failures the two functions report; each is built with
    [fmt.Errorf] in the source, [Error] gives that message. *)
Inductive TransformError : Type :=
  | InvalidArguments
  | InvalidPattern (diagnostic : string)
  | TemplateUnused
  | NoMatch (path : string)
  | UnresolvedPlaceholder (result : string).

Definition Error (e : TransformError) : string :=
  match e with
  | InvalidArguments => "both pattern and format must be non-empty"
  | InvalidPattern d => "invalid regex pattern: " +:+ d
  | TemplateUnused => "format string does not use any captured variables"
  | NoMatch p => "path does not match pattern: " +:+ p
  | UnresolvedPlaceholder r =>
      "some placeholders in format string were not replaced: " +:+ r
  end.

(** What a call does: it returns a value, returns an error, or stops on a
    run-time panic (an index out of range). *)
Inductive Outcome (A : Type) : Type :=
  | Ok (a : A)
  | Err (e : TransformError)
  | Panic.
Arguments Ok {A} a.
Arguments Err {A} e.
Arguments Panic {A}.

(** ** The regular-expression engine, as the code uses it *)

(** A half-open byte range of the input; [None] for a group that took no
    part in the match (Go's [-1] offsets). *)
Abbreviation span := (option (nat * nat)).

Class RegexpEngine := {
  Regexp : Type;
  (** [regexp.Compile]: a compiled expression or the parser's message. *)
  Compile : string → Regexp + string;
  (** [re.SubexpNames()]: index 0 is the whole expression, index [i] the
      [i]-th parenthesised group, the empty name for an unnamed one. *)
  SubexpNames : Regexp → list string;
  (** The matcher itself: [None] when the expression matches nowhere in
      the input, else the span of every group of the leftmost match. *)
  doExecute : Regexp → string → option (list span);
}.

Section Transformer.

Context `{engine : RegexpEngine}.

(** [re.NumSubexp()]. *)
Definition NumSubexp (re : Regexp) : nat := pred (length (SubexpNames re)).

(** [re.FindStringSubmatch s]: the text of the leftmost match and of its
    groups; a group that took no part is left as the empty string. *)
Definition FindStringSubmatch (re : Regexp) (s : string) : option (list string) :=
  match doExecute re s with
  | None => None
  | Some a =>
      Some ((λ i, match a !! i with
                  | Some (Some (b, e)) => String.substring b (e - b) s
                  | _ => EmptyString
                  end) <$> seq 0 (1 + NumSubexp re))
  end.

Record PathTransformer : Type := {
  pattern : Regexp;
  format : string;
}.

(** The placeholder text of a group name. *)
Definition placeholder (name : string) : string := "${" +:+ name +:+ "}".

(** The validation loop of [NewPathTransformer]: stop at the first named
    group whose placeholder occurs in [format]. *)
Fixpoint hasNamedGroup (subexpNames : list string) (format : string) : bool :=
  match subexpNames with
  | [] => false
  | name :: rest =>
      if bool_decide (name ≠ "") && strings.Contains format (placeholder name)
      then true
      else hasNamedGroup rest format
  end.

Definition NewPathTransformer (pattern format : string) : Outcome PathTransformer :=
  if bool_decide (pattern = "") || bool_decide (format = "") then
    Err InvalidArguments
  else
    match Compile pattern with
    | inr err => Err (InvalidPattern err)
    | inl re =>
        if negb (hasNamedGroup (SubexpNames re) format) then Err TemplateUnused
        else Ok {| pattern := re; format := format |}
    end.

(** The loop that fills the [captures] map: [i] is the index of the head
    of [subexpNames]; reading [match[i]] past the end of [match] panics. *)
Fixpoint collect (i : nat) (subexpNames : list string) (match_ : list string)
    (captures : gmap string string) : option (gmap string string) :=
  match subexpNames with
  | [] => Some captures
  | name :: rest =>
      if bool_decide (i ≠ 0) && bool_decide (name ≠ "") then
        match match_ !! i with
        | Some value => collect (S i) rest match_ (<[name := value]> captures)
        | None => None
        end
      else collect (S i) rest match_ captures
  end.

(** Go ranges over a map in an order of its own choosing, which may change
    from one loop to the next.  A [RangeOrder] is one such choice: it lists
    the entries of the map in some order. *)
Record RangeOrder : Type := {
  range :> list (string * string) → list (string * string);
  range_perm : ∀ l, range l ≡ₚ l;
}.

(** The substitution loop, over the entries in the order they are met. *)
Definition substitute (entries : list (string * string)) (format : string) : string :=
  fold_left (λ result '(name, value), strings.Replace result (placeholder name) value)
            entries format.

(** The final test of [Transform]. *)
Definition unreplaced (result : string) : bool :=
  strings.Contains result "${" && strings.Contains result "}".

Definition Transform (ord : RangeOrder) (t : PathTransformer) (path : string)
    : Outcome string :=
  match FindStringSubmatch (pattern t) path with
  | None => Err (NoMatch path)
  | Some match_ =>
      match collect 0 (SubexpNames (pattern t)) match_ ∅ with
      | None => Panic
      | Some captures =>
          let result := substitute (ord (map_to_list captures)) (format t) in
          if unreplaced result then Err (UnresolvedPlaceholder result)
          else Ok result
      end
  end.

End Transformer.

(** ** A concrete engine for a fragment of the RE2 syntax

    Literals, [.], escapes, bracketed classes, [^] and [$], the three kinds
    of group ([(...)], [(?:...)], [(?P<name>...)]), alternation and the
    greedy repetitions [*], [+], [?], [{n}], [{n,}], [{n,m}], matched over
    bytes with leftmost-first (Perl-like) priority, as package [regexp]
    does on ASCII text.  Anything else is refused by [Parse]. *)

Module syntax.

Inductive Regex : Type :=
  | OpEmptyMatch
  | OpLiteral (c : ascii)
  | OpCharClass (negated : bool) (ranges : list (ascii * ascii))
  | OpAnyCharNotNL
  | OpBeginText
  | OpEndText
  | OpCapture (index : nat) (name : string) (sub : Regex)
  | OpStar (sub : Regex)
  | OpPlus (sub : Regex)
  | OpQuest (sub : Regex)
  | OpConcat (sub1 sub2 : Regex)
  | OpAlternate (sub1 sub2 : Regex).

Definition code (c : ascii) : N := N_of_ascii c.

Definition between (lo hi c : ascii) : bool :=
  ((code lo <=? code c) && (code c <=? code hi))%N.

Definition inClass (negated : bool) (ranges : list (ascii * ascii)) (c : ascii) : bool :=
  xorb negated (existsb (λ '(lo, hi), between lo hi c) ranges).

Definition isDigit (c : ascii) : bool := between "0" "9" c.

Definition isWordChar (c : ascii) : bool :=
  between "0" "9" c || between "A" "Z" c || between "a" "z" c
  || bool_decide (c = "_"%char).

Definition digitRanges : list (ascii * ascii) := [("0", "9")]%char.
Definition wordRanges : list (ascii * ascii) :=
  [("0", "9"); ("A", "Z"); ("_", "_"); ("a", "z")]%char.
Definition spaceRanges : list (ascii * ascii) :=
  [("009", "010"); ("012", "013"); (" ", " ")]%char.

(** Whether the expression can match the empty string. *)
Fixpoint nullable (r : Regex) : bool :=
  match r with
  | OpEmptyMatch | OpBeginText | OpEndText | OpStar _ | OpQuest _ => true
  | OpLiteral _ | OpCharClass _ _ | OpAnyCharNotNL => false
  | OpCapture _ _ sub | OpPlus sub => nullable sub
  | OpConcat a b => nullable a && nullable b
  | OpAlternate a b => nullable a || nullable b
  end.

Definition concat (a b : Regex) : Regex :=
  match a, b with
  | OpEmptyMatch, _ => b
  | _, OpEmptyMatch => a
  | _, _ => OpConcat a b
  end.

(** [n] copies of [r] in a row. *)
Fixpoint copies (n : nat) (r : Regex) : Regex :=
  match n with
  | O => OpEmptyMatch
  | S n' => concat r (copies n' r)
  end.

(** [(r(r(r)?)?)?], [n] deep. *)
Fixpoint optional (n : nat) (r : Regex) : Regex :=
  match n with
  | O => OpEmptyMatch
  | S n' => OpQuest (concat r (optional n' r))
  end.

(** The counted repetition, written out as package [syntax] simplifies it. *)
Definition repeat (r : Regex) (min : nat) (max : option nat) : Regex :=
  match max with
  | None =>
      match min with
      | O => OpStar r
      | S m => concat (copies m r) (OpPlus r)
      end
  | Some max => concat (copies min r) (optional (max - min) r)
  end.

(** What the parser has seen so far: the number of capturing groups and
    their names, in the order of their opening parentheses. *)
Record pstate : Type := { numCap : nat; capNames : list string }.

Definition parsed (A : Type) : Type := (A * pstate * string) + string.

Fixpoint parseInt (acc : nat) (seen : bool) (s : string) : option (nat * string) :=
  match s with
  | String c s' =>
      if isDigit c
      then parseInt (10 * acc + (N.to_nat (code c) - 48)) true s'
      else if seen then Some (acc, s) else None
  | EmptyString => if seen then Some (acc, s) else None
  end.

(** The text after an opening brace: [n}], [n,}] or [n,m}]. *)
Definition parseRepeat (s : string) : option (nat * option nat * string) :=
  match parseInt 0 false s with
  | Some (min, String "}" rest) => Some (min, Some min, rest)
  | Some (min, String "," (String "}" rest)) => Some (min, None, rest)
  | Some (min, String "," s') =>
      match parseInt 0 false s' with
      | Some (max, String "}" rest) => Some (min, Some max, rest)
      | _ => None
      end
  | _ => None
  end.

(** The name of a group, up to the closing [>]. *)
Fixpoint parseCaptureName (s : string) : option (string * string) :=
  match s with
  | EmptyString => None
  | String c s' =>
      if bool_decide (c = ">"%char) then Some (EmptyString, s')
      else if isWordChar c then
        match parseCaptureName s' with
        | Some (name, rest) => Some (String c name, rest)
        | None => None
        end
      else None
  end.

(** A backslash escape, outside or inside a class: one literal byte or a
    Perl class. *)
Definition parseEscape (c : ascii) : option (Regex + list (ascii * ascii)) :=
  if bool_decide (c = "d"%char) then Some (inr digitRanges)
  else if bool_decide (c = "w"%char) then Some (inr wordRanges)
  else if bool_decide (c = "s"%char) then Some (inr spaceRanges)
  else if bool_decide (c = "n"%char) then Some (inl (OpLiteral "010"))
  else if bool_decide (c = "t"%char) then Some (inl (OpLiteral "009"))
  else if bool_decide (c = "r"%char) then Some (inl (OpLiteral "013"))
  else if isWordChar c || (128 <=? code c)%N then None
  else Some (inl (OpLiteral c)).

(** The items of a bracketed class, after [[] or [[^]. *)
Fixpoint parseClass (first : bool) (acc : list (ascii * ascii)) (s : string)
    : option (list (ascii * ascii) * string) :=
  match s with
  | EmptyString => None
  | String c s' =>
      if bool_decide (c = "]"%char) && negb first then Some (rev acc, s')
      else if bool_decide (c = "["%char) then None
      else if bool_decide (c = "\"%char) then
        match s' with
        | String e s'' =>
            match parseEscape e with
            | Some (inl (OpLiteral l)) => parseClass false ((l, l) :: acc) s''
            | Some (inr ranges) => parseClass false (rev ranges ++ acc) s''
            | _ => None
            end
        | EmptyString => None
        end
      else
        match s' with
        | String "-" (String hi s'') =>
            if bool_decide (hi = "]"%char) then parseClass false ((c, c) :: acc) s'
            else if bool_decide (hi = "\"%char) || bool_decide (hi = "["%char) then None
            else if (code c <=? code hi)%N then parseClass false ((c, hi) :: acc) s''
            else None
        | _ => parseClass false ((c, c) :: acc) s'
        end
  end.

Definition isRepeatOp (c : ascii) : bool :=
  bool_decide (c = "*"%char) || bool_decide (c = "+"%char) || bool_decide (c = "?"%char).

(** The repetition operator, if any, that follows an atom. *)
Definition parsePostfix (r : Regex) (s : string) : (Regex * string) + string :=
  let checked (r' : Regex) (rest : string) : (Regex * string) + string :=
    match rest with
    | String c _ =>
        if isRepeatOp c then inr "invalid nested repetition operator"
        else inl (r', rest)
    | EmptyString => inl (r', rest)
    end in
  let looping (r' : Regex) (rest : string) : (Regex * string) + string :=
    if nullable r then inr "repetition of an expression that matches the empty string"
    else checked r' rest in
  match s with
  | String "*" rest => looping (OpStar r) rest
  | String "+" rest => looping (OpPlus r) rest
  | String "?" rest => checked (OpQuest r) rest
  | String "{" s' =>
      match parseRepeat s' with
      | Some (min, max, rest) =>
          if bool_decide (1000 < min) || bool_decide (1000 < default 0 max)
             || bool_decide (default min max < min)
          then inr "invalid repeat count"
          else looping (repeat r min max) rest
      | None => inl (r, s)
      end
  | _ => inl (r, s)
  end.

Fixpoint parseAlternate (fuel : nat) (st : pstate) (s : string) : parsed Regex :=
  match fuel with
  | O => inr "expression too large"
  | S fuel =>
      match parseConcat fuel st s with
      | inl (r1, st1, String "|" s1) =>
          match parseAlternate fuel st1 s1 with
          | inl (r2, st2, s2) => inl (OpAlternate r1 r2, st2, s2)
          | inr err => inr err
          end
      | other => other
      end
  end
with parseConcat (fuel : nat) (st : pstate) (s : string) : parsed Regex :=
  match fuel with
  | O => inr "expression too large"
  | S fuel =>
      match s with
      | EmptyString | String "|" _ | String ")" _ => inl (OpEmptyMatch, st, s)
      | _ =>
          match parseAtom fuel st s with
          | inl (r, st1, s1) =>
              match parsePostfix r s1 with
              | inl (r1, s2) =>
                  match parseConcat fuel st1 s2 with
                  | inl (r2, st2, s3) => inl (concat r1 r2, st2, s3)
                  | inr err => inr err
                  end
              | inr err => inr err
              end
          | inr err => inr err
          end
      end
  end
with parseAtom (fuel : nat) (st : pstate) (s : string) : parsed Regex :=
  match fuel with
  | O => inr "expression too large"
  | S fuel =>
      let group (wrap : Regex → Regex) (st : pstate) (body : string) : parsed Regex :=
        match parseAlternate fuel st body with
        | inl (r, st1, String ")" rest) => inl (wrap r, st1, rest)
        | inl _ => inr "missing closing )"
        | inr err => inr err
        end in
      let capture (name body : string) : parsed Regex :=
        let index := S (numCap st) in
        group (OpCapture index name)
              {| numCap := index; capNames := capNames st ++ [name] |} body in
      match s with
      | EmptyString => inr "missing argument"
      | String "(" (String "?" (String ":" body)) => group id st body
      | String "(" (String "?" (String "P" (String "<" s'))) =>
          match parseCaptureName s' with
          | Some (String c name, body) => capture (String c name) body
          | _ => inr "invalid named capture"
          end
      | String "(" (String "?" _) => inr "invalid or unsupported Perl syntax"
      | String "(" body => capture EmptyString body
      | String "[" (String "^" s') =>
          match parseClass true [] s' with
          | Some (ranges, rest) => inl (OpCharClass true ranges, st, rest)
          | None => inr "missing closing ] or unsupported class"
          end
      | String "[" s' =>
          match parseClass true [] s' with
          | Some (ranges, rest) => inl (OpCharClass false ranges, st, rest)
          | None => inr "missing closing ] or unsupported class"
          end
      | String "." rest => inl (OpAnyCharNotNL, st, rest)
      | String "^" rest => inl (OpBeginText, st, rest)
      | String "$" rest => inl (OpEndText, st, rest)
      | String "\" (String e rest) =>
          match parseEscape e with
          | Some (inl r) => inl (r, st, rest)
          | Some (inr ranges) => inl (OpCharClass false ranges, st, rest)
          | None => inr "invalid or unsupported escape sequence"
          end
      | String "\" EmptyString => inr "trailing backslash at end of expression"
      | String c rest =>
          if isRepeatOp c then inr "missing argument to repetition operator"
          else inl (OpLiteral c, st, rest)
      end
  end.

(** [syntax.Parse]: the expression and the names of its groups. *)
Definition Parse (s : string) : (Regex * list string) + string :=
  match parseAlternate (4 * String.length s + 8) {| numCap := 0; capNames := [] |} s with
  | inl (r, st, EmptyString) => inl (r, capNames st)
  | inl (_, _, String _ _) => inr "unexpected )"
  | inr err => inr err
  end.

End syntax.

Module backtrack.
Import syntax.

(** What remains to be matched after an expression: it receives the
    offset reached, the unread input and the spans recorded so far. *)
Definition cont : Type := nat → string → list span → option (list span).

Definition orElse (a : option (list span)) (b : option (list span)) : option (list span) :=
  match a with
  | Some x => Some x
  | None => b
  end.

Definition step (accept : ascii → bool) (k : cont) (pos : nat) (rest : string)
    (cap : list span) : option (list span) :=
  match rest with
  | String c rest' => if accept c then k (S pos) rest' cap else None
  | EmptyString => None
  end.

(** Try [r] at offset [pos], then [k]; the first alternative that leads to
    an overall match wins, and a loop prefers one more round.  A round of
    a loop has to consume input, so a loop over [n] bytes makes at most [n]
    rounds. *)
Fixpoint run (r : Regex) (k : cont) (pos : nat) (rest : string) (cap : list span)
    {struct r} : option (list span) :=
  let loop (sub : Regex) :=
    fix loop (n : nat) (pos : nat) (rest : string) (cap : list span) {struct n}
        : option (list span) :=
      match n with
      | O => k pos rest cap
      | S n' =>
          orElse (run sub (λ pos' rest' cap',
                             if decide (pos < pos') then loop n' pos' rest' cap'
                             else None) pos rest cap)
                 (k pos rest cap)
      end in
  match r with
  | OpEmptyMatch => k pos rest cap
  | OpLiteral c => step (λ c', bool_decide (c' = c)) k pos rest cap
  | OpCharClass negated ranges => step (inClass negated ranges) k pos rest cap
  | OpAnyCharNotNL => step (λ c', negb (bool_decide (c' = "010"%char))) k pos rest cap
  | OpBeginText => if decide (pos = 0) then k pos rest cap else None
  | OpEndText => if decide (rest = EmptyString) then k pos rest cap else None
  | OpCapture index _ sub =>
      run sub (λ pos' rest' cap', k pos' rest' (<[index := Some (pos, pos')]> cap'))
          pos rest cap
  | OpStar sub => loop sub (String.length rest) pos rest cap
  | OpPlus sub =>
      run sub (λ pos' rest' cap', loop sub (String.length rest') pos' rest' cap')
          pos rest cap
  | OpQuest sub => orElse (run sub k pos rest cap) (k pos rest cap)
  | OpConcat sub1 sub2 => run sub1 (run sub2 k) pos rest cap
  | OpAlternate sub1 sub2 => orElse (run sub1 k pos rest cap) (run sub2 k pos rest cap)
  end.

(** A match that starts at offset [pos] exactly. *)
Definition matchAt (r : Regex) (ncap : nat) (pos : nat) (rest : string)
    : option (list span) :=
  run r (λ pos' _ cap, Some (<[0 := Some (pos, pos')]> cap)) pos rest
      (replicate (S ncap) None).

(** The leftmost match: the first offset, from [pos] on, at which the
    expression matches. *)
Fixpoint search (r : Regex) (ncap : nat) (pos : nat) (rest : string)
    : option (list span) :=
  orElse (matchAt r ncap pos rest)
         match rest with
         | EmptyString => None
         | String _ rest' => search r ncap (S pos) rest'
         end.

End backtrack.

(** The compiled expression: its source text, its syntax tree and the
    names of its groups. *)
Record FragmentRegexp : Type := {
  expr : string;
  prog : syntax.Regex;
  subexpNames : list string;
}.

Definition fragmentCompile (expr : string) : FragmentRegexp + string :=
  match syntax.Parse expr with
  | inl (r, names) =>
      inl {| expr := expr; prog := r; subexpNames := EmptyString :: names |}
  | inr err => inr ("error parsing regexp: " +:+ err)
  end.

#[export] Instance fragment : RegexpEngine := {|
  Regexp := FragmentRegexp;
  Compile := fragmentCompile;
  SubexpNames := subexpNames;
  doExecute re s := backtrack.search (prog re) (pred (length (subexpNames re))) 0 s;
|}.

(** The order in which the entries are stored, and the reverse of it. *)
Definition stored : RangeOrder :=
  {| range := λ l, l; range_perm := λ l, reflexivity l |}.

Definition backwards : RangeOrder :=
  {| range := reverse; range_perm := reverse_Permutation |}.

(** [NewPathTransformer] followed by [Transform], as the tests of the
    package run them. *)
Definition compileAndTransform `{RegexpEngine} (ord : RangeOrder)
    (pattern format path : string) : Outcome string :=
  match NewPathTransformer pattern format with
  | Ok t => Transform ord t path
  | Err e => Err e
  | Panic => Panic
  end.

(** The test of the package for an expected error: the call fails and
    the message of its error contains [errContains]. *)
Definition failsWith {A : Type} (o : Outcome A) (errContains : string) : bool :=
  match o with
  | Err e => strings.Contains (Error e) errContains
  | _ => false
  end.

(** The [captures] map that [Transform] builds for [path], when the
    pattern matches and the loop that fills the map does not panic. *)
Definition captured `{RegexpEngine} (t : PathTransformer) (path : string)
    : option (gmap string string) :=
  match FindStringSubmatch (pattern t) path with
  | Some match_ => collect 0 (SubexpNames (pattern t)) match_ ∅
  | None => None
  end.

(** Placeholder-shaped text in the words of the specification: a dollar
    sign and an opening brace followed, later in the string, by a closing
    brace. *)
Fixpoint placeholderShaped (s : string) : bool :=
  match s with
  | EmptyString => false
  | String _ s' =>
      (strings.HasPrefix s "${"
       && match s' with
          | String _ rest => strings.Contains rest "}"
          | EmptyString => false
          end)
      || placeholderShaped s'
  end.

(** ** The caller: the path-rewriting loop of [main] *)

Record FileInfo : Type := {
  ID : string;
  Name : string;
  Path : string;
  MimeType : string;
  ModifiedTime : string;
}.

(** [files[i].Path = newPath]. *)
Definition setPath (f : FileInfo) (newPath : string) : FileInfo :=
  {| ID := ID f; Name := Name f; Path := newPath;
     MimeType := MimeType f; ModifiedTime := ModifiedTime f |}.

(** [for i := range files]: [n] rounds are left and [i] is the index of
    the next one; [ords i] is the order in which the [i]-th call of
    [Transform] happens to range over its map.  An error is reported and
    the loop goes on to the next file. *)
Fixpoint transformLoop `{RegexpEngine} (ords : nat → RangeOrder) (t : PathTransformer)
    (n i : nat) (files : list FileInfo) : Outcome (list FileInfo) :=
  match n with
  | O => Ok files
  | S n' =>
      match files !! i with
      | None => Panic
      | Some f =>
          match Transform (ords i) t (Path f) with
          | Err _ => transformLoop ords t n' (S i) files
          | Ok newPath => transformLoop ords t n' (S i) (<[i := setPath f newPath]> files)
          | Panic => Panic
          end
      end
  end.

(** [if pathTransformer != nil { ... }], up to the call of
    [DownloadFiles]. *)
Definition transformFilePaths `{RegexpEngine} (ords : nat → RangeOrder)
    (pathTransformer : option PathTransformer) (files : list FileInfo)
    : Outcome (list FileInfo) :=
  match pathTransformer with
  | None => Ok files
  | Some t => transformLoop ords t (length files) 0 files
  end.

(** The path a file ends up with. *)
Definition finalPath `{RegexpEngine} (ord : RangeOrder) (t : PathTransformer)
    (f : FileInfo) : FileInfo :=
  match Transform ord t (Path f) with
  | Ok newPath => setPath f newPath
  | _ => f
  end.

(** ** Transformers of the scenarios *)

(** The compiled form of a pattern of the fragment; the empty expression
    stands in for a pattern that is refused. *)
Definition MustCompile (expr : string) : FragmentRegexp :=
  match fragmentCompile expr with
  | inl re => re
  | inr _ => {| expr := expr; prog := syntax.OpEmptyMatch; subexpNames := [""] |}
  end.

(** The scenario of the date components. *)
Definition datePattern : string :=
  "(?P<month>[^-]+)-(?P<day>[^-]+)-(?P<year>[^-]+)-(?P<hour>[^-]+)-(?P<minute>[^-]+)-(?P<second>[^-]+)-(?P<room>[^/]+)/.*\.TRANSCRIPT$".

Definition dateFormat : string := "${year}-${month}-${day}_${hour}-${minute}.TRANSCRIPT".

Definition reDate : FragmentRegexp := Eval vm_compute in MustCompile datePattern.

Definition tDate : PathTransformer (engine := fragment) :=
  {| pattern := reDate; format := dateFormat |}.

(** The pattern [(?P<a>x)] as the fragment engine compiles it. *)
Definition reA : FragmentRegexp :=
  {| expr := "(?P<a>x)";
     prog := syntax.OpCapture 1 "a" (syntax.OpLiteral "x");
     subexpNames := [""; "a"] |}.

(** The pattern [(?P<n>b)], which has no anchor, with the format [${n}]. *)
Definition tMiddle : PathTransformer (engine := fragment) :=
  {| pattern := {| expr := "(?P<n>b)";
                   prog := syntax.OpCapture 1 "n" (syntax.OpLiteral "b");
                   subexpNames := [""; "n"] |};
     format := "${n}" |}.

(** Two transformers of the fragment engine, both with the pattern
    [(?P<a>x)]. *)
Definition tOpen : PathTransformer (engine := fragment) :=
  {| pattern := reA; format := "${a}${" |}.

Definition tClosedFirst : PathTransformer (engine := fragment) :=
  {| pattern := reA; format := "}${a}${" |}.

(** A pattern with two groups, for inputs whose first part names the
    second group. *)
Definition reAB : FragmentRegexp := Eval vm_compute in MustCompile "(?P<a>[^-]*)-(?P<b>.*)".

Definition tAB : PathTransformer (engine := fragment) :=
  {| pattern := reAB; format := "${a}" |}.

(** A pattern of which one group at most takes part in a match. *)
Definition reEither : FragmentRegexp := Eval vm_compute in MustCompile "(?P<a>x)|(?P<b>y)".

Definition tEither : PathTransformer (engine := fragment) :=
  {| pattern := reEither; format := "${a}${b}" |}.

(** ** Formats made of literal text and placeholders *)

(** The pieces of a format that a user writes: literal text, and the
    placeholder of a name. *)
Inductive Piece : Type :=
  | Literal (text : string)
  | Placeholder (name : string).

(** The text of the pieces when [value] gives the text of each name. *)
Fixpoint render (value : string → string) (pieces : list Piece) : string :=
  match pieces with
  | [] => ""
  | Literal text :: rest => text +:+ render value rest
  | Placeholder name :: rest => value name +:+ render value rest
  end.

(** What stands for a name once the map has been substituted: its entry,
    or its placeholder when the map has none. *)
Definition resolved (captures : gmap string string) (name : string) : string :=
  default (placeholder name) (captures !! name).

(** Text without a dollar sign, and names with neither a dollar sign nor
    a closing brace (as all names of groups are: package [regexp] takes
    letters, digits and underscores only). *)
Definition plain (s : string) : Prop := strings.Contains s "$" = false.

Definition wordy (name : string) : Prop :=
  strings.Contains name "$" = false ∧ strings.Contains name "}" = false.

(** The text that [FindStringSubmatch] reports for the group of index [i]
    when the engine returned the spans [a] for the input [s]. *)
Definition groupText (a : list span) (s : string) (i : nat) : string :=
  match a !! i with
  | Some (Some (b, e)) => String.substring b (e - b) s
  | _ => ""
  end.

(** Pieces whose literal text has no dollar sign and whose names are names
    of groups. *)
Definition wellFormed (pieces : list Piece) : Prop :=
  Forall (λ piece, match piece with
                   | Literal text => plain text
                   | Placeholder name => wordy name
                   end) pieces.

(** The names of the placeholders among the pieces. *)
Fixpoint placeholders (pieces : list Piece) : list string :=
  match pieces with
  | [] => []
  | Literal _ :: rest => placeholders rest
  | Placeholder name :: rest => name :: placeholders rest
  end.

(** The format of the date scenario, in pieces, and the captures of its
    input. *)
Definition datePieces : list Piece :=
  [Placeholder "year"; Literal "-"; Placeholder "month"; Literal "-";
   Placeholder "day"; Literal "_"; Placeholder "hour"; Literal "-";
   Placeholder "minute"; Literal ".TRANSCRIPT"].

Definition dateCaptures : gmap string string :=
  list_to_map [("month", "apr"); ("day", "10"); ("year", "2025"); ("hour", "17");
               ("minute", "27"); ("second", "28"); ("room", "AI_TEAM_OFFICE_ROOM-2")].

(** The same pattern with a format that names a group, [type], that the
    pattern does not declare. *)
Definition tDateType : PathTransformer (engine := fragment) :=
  {| pattern := reDate; format := "${year}_${type}.TRANSCRIPT" |}.

Definition dateTypePieces : list Piece :=
  [Placeholder "year"; Literal "_"; Placeholder "type"; Literal ".TRANSCRIPT"].

(** ** Package [drive]: cleaning a path *)

(** The scan of [strings.Replace s old new n] for a non-empty [old] and a
    count [n] that is not negative: [limit] replacements are still
    allowed, and once none is left the rest of the string is copied. *)
Fixpoint replaceLimited (limit skip : nat) (s old new : string) : string :=
  match s with
  | EmptyString => EmptyString
  | String c s' =>
      match skip with
      | S k => replaceLimited limit k s' old new
      | O =>
          match limit with
          | O => s
          | S limit' =>
              if strings.HasPrefix s old
              then new +:+ replaceLimited limit' (String.length old - 1) s' old new
              else String c (replaceLimited limit 0 s' old new)
          end
      end
  end.

(** The empty [old] with a count: [new] goes before each of the first
    [limit] bytes, and after the last byte if the count allows. *)
Fixpoint explodeLimited (limit : nat) (s new : string) : string :=
  match limit with
  | O => s
  | S limit' =>
      match s with
      | EmptyString => new
      | String c s' => new +:+ String c (explodeLimited limit' s' new)
      end
  end.

(** [strings.Replace s old new n]: the first [n] instances of [old]
    replaced by [new]; all of them when [n] is negative. *)
Definition ReplaceN (s old new : string) (n : Z) : string :=
  if bool_decide (old = new) || bool_decide (n = 0%Z) then s
  else if bool_decide (n < 0)%Z then strings.Replace s old new
  else match old with
       | EmptyString => explodeLimited (Z.to_nat n) s new
       | String _ _ => replaceLimited (Z.to_nat n) 0 s old new
       end.

(** [cleanPath]: the first [Drive/zoom-recordings/] that follows
    [Zoom Recordings/] is taken out. *)
Definition cleanPath (path : string) : string :=
  if strings.Contains path "Zoom Recordings/Drive/zoom-recordings/"
  then ReplaceN path "Zoom Recordings/Drive/zoom-recordings/" "Zoom Recordings/" 1
  else path.

(** ** Package [drive]: the remote service and the local system *)

(** What the code talks to: the Drive service, the file system and the
    functions of [path/filepath].  Errors are kept as their messages,
    which is all the code does with them.  Console output ([d.log],
    [fmt.Printf]) is not modelled: it changes neither a result nor a
    call. *)

Module drivev3.

(** The fields of a [drive.File] that the code reads. *)
Record File : Type := {
  Id : string;
  Name : string;
  MimeType : string;
  Trashed : bool;
  DriveId : string;
  ModifiedTime : string;
  Parents : list string;
}.

(** [Files.List()] with the options set before [Do()]. *)
Record FilesListCall : Type := {
  Q : string;
  ListFields : string;
  OrderBy : string;
  IncludeItemsFromAllDrives : bool;
  ListSupportsAllDrives : bool;
  PageSize : Z;
}.

(** [Files.Get(fileId)] with the options set before [Do()]. *)
Record FilesGetCall : Type := {
  FileId : string;
  GetFields : string;
  GetSupportsAllDrives : bool;
}.

End drivev3.

Class Environment := {
  World : Type;
  (** The body of a download and an open file. *)
  Body : Type;
  OpenFile : Type;
  (** [drive.NewService] with a credentials file. *)
  NewService : string → World → option string * World;
  FilesGetDo : drivev3.FilesGetCall → World → (drivev3.File + string) * World;
  FilesListDo : drivev3.FilesListCall → World → (list drivev3.File + string) * World;
  (** [Files.Get(id).Download()]. *)
  FilesGetDownload : string → World → (Body + string) * World;
  (** [os.MkdirAll], [os.Create], [io.Copy] and the two [Close]. *)
  MkdirAll : string → Z → World → option string * World;
  Create : string → World → (OpenFile + string) * World;
  Copy : OpenFile → Body → World → option string * World;
  CloseBody : Body → World → World;
  CloseFile : OpenFile → World → World;
  (** [filepath.Join] and [filepath.Dir]. *)
  Join : list string → string;
  Dir : string → string;
}.

(** The calls that leave the program, in the order they are made. *)
Inductive Call : Type :=
  | CallNewService (credentialsFile : string)
  | CallFilesGet (call : drivev3.FilesGetCall)
  | CallFilesList (call : drivev3.FilesListCall)
  | CallDownload (fileId : string)
  | CallMkdirAll (path : string) (perm : Z)
  | CallCreate (path : string)
  | CallCopy
  | CallCloseBody
  | CallCloseFile.

(** The calls that only read from the Drive service. *)
Definition readsDrive (c : Call) : bool :=
  match c with
  | CallFilesGet _ | CallFilesList _ => true
  | _ => false
  end.

(** How a function of the package ends: with a value, with an error, with
    a run-time panic, or not within the steps granted to the model. *)
Inductive Result (A : Type) : Type :=
  | Return (a : A)
  | Fail (err : string)
  | Crashed
  | Unfinished.
Arguments Return {A} a.
Arguments Fail {A} err.
Arguments Crashed {A}.
Arguments Unfinished {A}.

(** Go's [int], 64 bits wide: the sum wraps around. *)
Definition maxInt : Z := (2 ^ 63 - 1)%Z.

Definition wrapInt (z : Z) : Z := ((z + 2 ^ 63) `mod` 2 ^ 64 - 2 ^ 63)%Z.

(** [len] of a slice. *)
Definition len {A : Type} (l : list A) : Z := Z.of_nat (length l).

(** Whether [strings.Repeat s count] panics: on a negative count, and
    when the length of the result does not fit an [int]. *)
Definition RepeatPanics (s : string) (count : Z) : bool :=
  bool_decide (count < 0)%Z
  || bool_decide (maxInt < Z.of_nat (String.length s) * count)%Z.

(** [sort.Slice] with the [less] of [ListFiles]: the slice comes back in
    some order in which no file is followed by a newer one.  The sort is
    not stable, so files of the same time may come in any order. *)
Definition newer (a b : FileInfo) : bool :=
  String.ltb (ModifiedTime b) (ModifiedTime a).

Record SliceSorter : Type := {
  sortSlice :> list FileInfo → list FileInfo;
  sortSlice_perm : ∀ l, sortSlice l ≡ₚ l;
  sortSlice_sorted : ∀ l, StronglySorted (λ a b, newer b a = false) (sortSlice l);
}.

Section Drive.

Context `{engine : RegexpEngine} `{env : Environment}.

(** [re.MatchString s]. *)
Definition MatchString (re : Regexp) (s : string) : bool :=
  match doExecute re s with
  | Some _ => true
  | None => false
  end.

(** The state of a run: the world, and the calls made so far. *)
Record State : Type := { world : World; calls : list Call }.

Definition record (c : Call) (w : World) (s : State) : State :=
  {| world := w; calls := calls s ++ [c] |}.

Definition newService (credentialsFile : string) (s : State) : option string * State :=
  let '(r, w) := NewService credentialsFile (world s) in
  (r, record (CallNewService credentialsFile) w s).

Definition filesGet (c : drivev3.FilesGetCall) (s : State)
    : (drivev3.File + string) * State :=
  let '(r, w) := FilesGetDo c (world s) in (r, record (CallFilesGet c) w s).

Definition filesList (c : drivev3.FilesListCall) (s : State)
    : (list drivev3.File + string) * State :=
  let '(r, w) := FilesListDo c (world s) in (r, record (CallFilesList c) w s).

Definition download (fileId : string) (s : State) : (Body + string) * State :=
  let '(r, w) := FilesGetDownload fileId (world s) in (r, record (CallDownload fileId) w s).

Definition mkdirAll (path : string) (perm : Z) (s : State) : option string * State :=
  let '(r, w) := MkdirAll path perm (world s) in (r, record (CallMkdirAll path perm) w s).

Definition create (path : string) (s : State) : (OpenFile + string) * State :=
  let '(r, w) := Create path (world s) in (r, record (CallCreate path) w s).

Definition copy (dst : OpenFile) (src : Body) (s : State) : option string * State :=
  let '(r, w) := Copy dst src (world s) in (r, record CallCopy w s).

Definition closeBody (b : Body) (s : State) : State :=
  record CallCloseBody (CloseBody b (world s)) s.

Definition closeFile (f : OpenFile) (s : State) : State :=
  record CallCloseFile (CloseFile f (world s)) s.

Definition folderMimeType : string := "application/vnd.google-apps.folder".

(** The request of both searches of [listFilesRecursive]. *)
Definition listCall (query : string) : drivev3.FilesListCall :=
  {| drivev3.Q := query;
     drivev3.ListFields :=
       "files(id, name, mimeType, trashed, driveId, owners, permissions, parents, modifiedTime)";
     drivev3.OrderBy := "modifiedTime desc";
     drivev3.IncludeItemsFromAllDrives := true;
     drivev3.ListSupportsAllDrives := true;
     drivev3.PageSize := 1000 |}.

(** [getFullPath]: the name of the file after the path of its first
    parent.  [folderNames] is handed on and never used.  An error of the
    call for a parent is dropped and the name alone is returned. *)
Fixpoint getFullPath (fuel : nat) (fileID : string) (folderNames : gmap string string)
    (s : State) : Result string * State :=
  match fuel with
  | O => (Unfinished, s)
  | S fuel' =>
      match filesGet {| drivev3.FileId := fileID;
                        drivev3.GetFields := "id, name, parents";
                        drivev3.GetSupportsAllDrives := true |} s with
      | (inr err, s1) => (Fail err, s1)
      | (inl file, s1) =>
          let path := drivev3.Name file in
          match drivev3.Parents file with
          | [] => (Return path, s1)
          | parent :: _ =>
              match getFullPath fuel' parent folderNames s1 with
              | (Return parentPath, s2) => (Return (Join [parentPath; path]), s2)
              | (Fail _, s2) => (Return path, s2)
              | (Crashed, s2) => (Crashed, s2)
              | (Unfinished, s2) => (Unfinished, s2)
              end
          end
      end
  end.

(** The loop of the broader search: each file found gets its full path,
    cleaned, as its name; a file whose path cannot be had is left out. *)
Fixpoint withFullPaths (fuel : nat) (found : list drivev3.File)
    (folderNames : gmap string string) (s : State)
    : Result (list drivev3.File) * State :=
  match found with
  | [] => (Return [], s)
  | f :: rest =>
      match getFullPath fuel (drivev3.Id f) folderNames s with
      | (Return fullPath, s1) =>
          let f' := {| drivev3.Id := drivev3.Id f;
                       drivev3.Name := cleanPath fullPath;
                       drivev3.MimeType := drivev3.MimeType f;
                       drivev3.Trashed := drivev3.Trashed f;
                       drivev3.DriveId := drivev3.DriveId f;
                       drivev3.ModifiedTime := drivev3.ModifiedTime f;
                       drivev3.Parents := drivev3.Parents f |} in
          match withFullPaths fuel rest folderNames s1 with
          | (Return newFiles, s2) => (Return (f' :: newFiles), s2)
          | other => other
          end
      | (Fail _, s1) => withFullPaths fuel rest folderNames s1
      | (Crashed, s1) => (Crashed, s1)
      | (Unfinished, s1) => (Unfinished, s1)
      end
  end.

(** The entry that [listFilesRecursive] appends for a file. *)
Definition fileInfoOf (f : drivev3.File) (currentPath : string) : FileInfo :=
  {| ID := drivev3.Id f;
     Name := drivev3.Name f;
     Path := currentPath;
     MimeType := drivev3.MimeType f;
     ModifiedTime := drivev3.ModifiedTime f |}.

(** The second loop of [listFilesRecursive] over the items of a folder;
    [recurse] is the call of [listFilesRecursive] for a subfolder, with
    its id and its path. *)
Fixpoint processItems
    (recurse : string → string → list FileInfo → State
               → Result unit * list FileInfo * State)
    (parentPath : string) (pattern : Regexp) (maxResults : Z)
    (items : list drivev3.File) (files : list FileInfo) (s : State)
    : Result unit * list FileInfo * State :=
  match items with
  | [] => (Return (), files, s)
  | f :: rest =>
      if bool_decide (0 < maxResults)%Z && bool_decide (maxResults ≤ len files)%Z
      then (Return (), files, s)
      else if drivev3.Trashed f
      then processItems recurse parentPath pattern maxResults rest files s
      else
        let currentPath := cleanPath (Join [parentPath; drivev3.Name f]) in
        if bool_decide (drivev3.MimeType f = folderMimeType) then
          match recurse (drivev3.Id f) currentPath files s with
          | (Return _, files', s') =>
              processItems recurse parentPath pattern maxResults rest files' s'
          | other => other
          end
        else if MatchString pattern (drivev3.Name f) then
          processItems recurse parentPath pattern maxResults rest
            (files ++ [fileInfoOf f currentPath]) s
        else processItems recurse parentPath pattern maxResults rest files s
  end.

(** What [r.Files] holds when the second loop starts: the items listed,
    or, for an empty folder of depth one, what the broader search finds.
    When that search fails, [r] is nil and reading [r.Files] for the next
    message panics. *)
Definition listedItems (pathFuel : nat) (currentDepth : Z)
    (rFiles : list drivev3.File) (s : State) : Result (list drivev3.File) * State :=
  if bool_decide (len rFiles = 0)%Z && bool_decide (currentDepth = 1)%Z then
    match filesList
            (listCall "fullText contains 'TRANSCRIPT' and name contains '.TRANSCRIPT'")
            s with
    | (inr _, s1) => (Crashed, s1)
    | (inl [], s1) => (Return [], s1)
    | (inl found, s1) => withFullPaths pathFuel found ∅ s1
    end
  else (Return rFiles, s).

(** [listFilesRecursive]: [files] is the slice behind the pointer, given
    back with the error.  [fuel] bounds the depth of the calls for the
    subfolders, [pathFuel] the calls of [getFullPath] for parents. *)
Fixpoint listFilesRecursive (fuel pathFuel : nat) (folderID parentPath : string)
    (pattern : Regexp) (maxDepth currentDepth maxResults : Z)
    (files : list FileInfo) (s : State) {struct fuel}
    : Result unit * list FileInfo * State :=
  match fuel with
  | O => (Unfinished, files, s)
  | S fuel' =>
      if bool_decide (maxDepth ≠ -1)%Z && bool_decide (maxDepth < currentDepth)%Z then
        (Return (), files, s)
      else if bool_decide (0 < maxResults)%Z && bool_decide (maxResults ≤ len files)%Z then
        (Return (), files, s)
      else if RepeatPanics "  " currentDepth then (Crashed, files, s)
      else
        match filesList (listCall ("'" +:+ folderID +:+ "' in parents")) s with
        | (inr err, s1) =>
            (Fail ("unable to list files in folder " +:+ folderID +:+ ": " +:+ err),
             files, s1)
        | (inl rFiles, s1) =>
            match listedItems pathFuel currentDepth rFiles s1 with
            | (Return items, s2) =>
                processItems
                  (λ id currentPath files s,
                     listFilesRecursive fuel' pathFuel id currentPath pattern maxDepth
                       (wrapInt (currentDepth + 1)) maxResults files s)
                  parentPath pattern maxResults items files s2
            | (Fail err, s2) => (Fail err, files, s2)
            | (Crashed, s2) => (Crashed, files, s2)
            | (Unfinished, s2) => (Unfinished, files, s2)
            end
        end
  end.

(** [ListFiles]. *)
Definition ListFiles (sorter : SliceSorter) (fuel pathFuel : nat)
    (folderID pattern : string) (maxDepth maxResults : Z) (s : State)
    : Result (list FileInfo) * State :=
  match Compile pattern with
  | inr err => (Fail ("invalid regex pattern: " +:+ err), s)
  | inl regex =>
      let root : (string + string) * State :=
        if bool_decide (folderID = "") then
          match filesGet {| drivev3.FileId := "root";
                            drivev3.GetFields := "id";
                            drivev3.GetSupportsAllDrives := false |} s with
          | (inr err, s1) => (inr ("unable to get root folder: " +:+ err), s1)
          | (inl root, s1) => (inl (drivev3.Id root), s1)
          end
        else (inl folderID, s) in
      match root with
      | (inr err, s1) => (Fail err, s1)
      | (inl folderID, s1) =>
          match listFilesRecursive fuel pathFuel folderID "" regex maxDepth 0 maxResults
                  [] s1 with
          | (Return _, files, s2) =>
              let files := sorter files in
              let files :=
                if bool_decide (0 < maxResults)%Z && bool_decide (maxResults < len files)%Z
                then take (Z.to_nat maxResults) files
                else files in
              (Return files, s2)
          | (Fail err, _, s2) => (Fail err, s2)
          | (Crashed, _, s2) => (Crashed, s2)
          | (Unfinished, _, s2) => (Unfinished, s2)
          end
      end
  end.

(** [DownloadFile]; the deferred [Close] calls run when it returns, the
    last one deferred first. *)
Definition DownloadFile (fileInfo : FileInfo) (outputDir : string) (s : State)
    : option string * State :=
  let outPath := Join [outputDir; Path fileInfo] in
  match mkdirAll (Dir outPath) 493 s with
  | (Some err, s1) => (Some ("unable to create output directory: " +:+ err), s1)
  | (None, s1) =>
      match download (ID fileInfo) s1 with
      | (inr err, s2) => (Some ("unable to download file: " +:+ err), s2)
      | (inl body, s2) =>
          match create outPath s2 with
          | (inr err, s3) =>
              (Some ("unable to create output file: " +:+ err), closeBody body s3)
          | (inl outFile, s3) =>
              match copy outFile body s3 with
              | (Some err, s4) =>
                  (Some ("unable to save file: " +:+ err),
                   closeBody body (closeFile outFile s4))
              | (None, s4) => (None, closeBody body (closeFile outFile s4))
              end
          end
      end
  end.

(** [DownloadFiles]. *)
Fixpoint DownloadFiles (files : list FileInfo) (outputDir : string) (s : State)
    : option string * State :=
  match files with
  | [] => (None, s)
  | file :: rest =>
      match DownloadFile file outputDir s with
      | (Some err, s1) =>
          (Some ("error downloading " +:+ Path file +:+ ": " +:+ err), s1)
      | (None, s1) => DownloadFiles rest outputDir s1
      end
  end.

(** [NewDriveService]; the service it wraps is the environment. *)
Definition NewDriveService (credentialsFile : string) (verbose : bool) (s : State)
    : option string * State :=
  match newService credentialsFile s with
  | (Some err, s1) => (Some ("unable to create Drive service: " +:+ err), s1)
  | (None, s1) => (None, s1)
  end.

End Drive.

(** ** The command: [main] *)

Module flags.

(** The variables that [flag.Parse] fills. *)
Record Flags : Type := {
  credentials : string;
  folderID : string;
  pattern : string;
  maxDepth : Z;
  dryRun : bool;
  outputDir : string;
  verbose : bool;
  maxResults : Z;
  pathPattern : string;
  pathFormat : string;
}.

End flags.

(** How the command ends: with an exit status ([main] returning is status
    0), with a panic, or not within the steps granted to the model. *)
Inductive Ending : Type :=
  | Exit (status : Z)
  | Panics
  | Runs.

Section Main.

Context `{engine : RegexpEngine} `{env : Environment}.

(** The preview of a dry run: [Transform] is called for every file and
    its result is only printed. *)
Fixpoint preview (ords : nat → RangeOrder) (pathTransformer : option PathTransformer)
    (i : nat) (files : list FileInfo) : Ending :=
  match files with
  | [] => Exit 0
  | file :: rest =>
      match pathTransformer with
      | Some t =>
          match Transform (ords i) t (Path file) with
          | Panic => Panics
          | _ => preview ords pathTransformer (S i) rest
          end
      | None => preview ords pathTransformer (S i) rest
      end
  end.

(** [main], after [flag.Parse]. *)
Definition main (sorter : SliceSorter) (ords : nat → RangeOrder) (fuel pathFuel : nat)
    (f : flags.Flags) (s : State) : Ending * State :=
  if bool_decide (flags.pattern f = "") then (Exit 1, s)
  else if negb (eqb (bool_decide (flags.pathPattern f = ""))
                    (bool_decide (flags.pathFormat f = ""))) then (Exit 1, s)
  else
    let compiled : Outcome (option PathTransformer) :=
      if bool_decide (flags.pathPattern f ≠ "") then
        match NewPathTransformer (flags.pathPattern f) (flags.pathFormat f) with
        | Ok t => Ok (Some t)
        | Err e => Err e
        | Panic => Panic
        end
      else Ok None in
    match compiled with
    | Panic => (Panics, s)
    | Err _ => (Exit 1, s)
    | Ok pathTransformer =>
        match NewDriveService (flags.credentials f) (flags.verbose f) s with
        | (Some _, s1) => (Exit 1, s1)
        | (None, s1) =>
            match ListFiles sorter fuel pathFuel (flags.folderID f) (flags.pattern f)
                    (flags.maxDepth f) (flags.maxResults f) s1 with
            | (Fail _, s2) => (Exit 1, s2)
            | (Crashed, s2) => (Panics, s2)
            | (Unfinished, s2) => (Runs, s2)
            | (Return files, s2) =>
                if flags.dryRun f then (preview ords pathTransformer 0 files, s2)
                else
                  match transformFilePaths ords pathTransformer files with
                  | Panic | Err _ => (Panics, s2)
                  | Ok files' =>
                      match DownloadFiles files' (flags.outputDir f) s2 with
                      | (Some _, s3) => (Exit 1, s3)
                      | (None, s3) => (Exit 0, s3)
                      end
                  end
            end
        end
    end.

End Main.

(** ** An environment and a sort to run the model on *)

(** A service in which every folder lists the same [items], a file is
    looked up by its id among [known], the download of the ids in
    [broken] fails, and every other call succeeds.  Its [Join] puts a
    slash between the elements that are not empty. *)
Definition joinWithSlash (elem : list string) : string :=
  foldr (λ a b, if bool_decide (a = "") then b
                else if bool_decide (b = "") then a
                else a +:+ "/" +:+ b) "" elem.

Definition memoryService (items known : list drivev3.File) (broken : list string)
    : Environment :=
  {| World := unit;
     Body := unit;
     OpenFile := unit;
     NewService := λ _ w, (None, w);
     FilesGetDo := λ c w,
       match list_find (λ f, drivev3.Id f = drivev3.FileId c) known with
       | Some (_, f) => (inl f, w)
       | None => (inr "notFound", w)
       end;
     FilesListDo := λ _ w, (inl items, w);
     FilesGetDownload := λ fileId w,
       if bool_decide (fileId ∈ broken) then (inr "downloadFailed", w) else (inl (), w);
     MkdirAll := λ _ _ w, (None, w);
     Create := λ _ w, (inl (), w);
     Copy := λ _ _ w, (None, w);
     CloseBody := λ _ w, w;
     CloseFile := λ _ w, w;
     Join := joinWithSlash;
     Dir := λ path, path |}.

Definition sameListing (items : list drivev3.File) : Environment :=
  memoryService items [] [].

Definition start `{Environment} (w : World) : State := {| world := w; calls := [] |}.

(** A file and a folder as the service reports them. *)
Definition transcriptFile : drivev3.File :=
  {| drivev3.Id := "f1"; drivev3.Name := "audio.TRANSCRIPT";
     drivev3.MimeType := "text/plain"; drivev3.Trashed := false;
     drivev3.DriveId := ""; drivev3.ModifiedTime := "2025-04-10T17:27:28Z";
     drivev3.Parents := ["root"] |}.

Definition someFolder : drivev3.File :=
  {| drivev3.Id := "d1"; drivev3.Name := "recordings";
     drivev3.MimeType := "application/vnd.google-apps.folder"; drivev3.Trashed := false;
     drivev3.DriveId := ""; drivev3.ModifiedTime := "2025-04-10T17:00:00Z";
     drivev3.Parents := ["root"] |}.

(** The pattern [TRANSCRIPT] as the fragment engine compiles it. *)
Definition reTranscript : FragmentRegexp := Eval vm_compute in MustCompile "TRANSCRIPT".

(** A sort for [sort.Slice]: merge sort on the modification times; among
    the orders that [sort.Slice] may give, it is the stable one. *)
Definition notOlder (a b : FileInfo) : Prop := newer b a = false.

#[export] Instance notOlder_dec : RelDecision notOlder.
Proof. intros a b. unfold notOlder. apply _. Defined.

Program Definition mergeSorter : SliceSorter :=
  {| sortSlice := merge_sort notOlder |}.
Next Obligation. intros l. apply merge_sort_Permutation. Qed.
Next Obligation.
  intros l.
  assert (∀ x y, String.ltb x y = negb (String.leb y x)) as Hltb.
  { intros x y. unfold String.ltb, String.leb. rewrite (String.compare_antisym y x).
    by destruct (String.compare x y). }
  assert (∀ a b, newer b a = false ↔ String.le (ModifiedTime b) (ModifiedTime a)) as Hle.
  { intros a b. unfold newer, String.le. rewrite Hltb.
    destruct (String.leb _ _); cbn; naive_solver. }
  assert (Transitive notOlder) as Htrans.
  { intros a b c Hab%Hle Hbc%Hle. apply Hle. by etrans. }
  assert (Total notOlder) as Htotal.
  { intros a b. unfold notOlder. rewrite !Hle. apply (total String.le). }
  apply (StronglySorted_merge_sort notOlder).
Qed.

(** ** What the properties of the package [drive] speak of *)

(** From [s] to [s'] only calls that [allowed] accepts were made. *)
Definition madeOnly (allowed : Call → bool) `{Environment} (s s' : State) : Prop :=
  ∃ new, calls s' = calls s ++ new ∧ Forall (λ c, allowed c = true) new.

(** An entry for a file whose name the pattern matches and that is not a
    folder. *)
Definition matched `{RegexpEngine} (pattern : Regexp) (f : FileInfo) : Prop :=
  MatchString pattern (Name f) = true ∧ MimeType f ≠ folderMimeType.

(** A service of which every folder lists two transcripts, and one of
    which every folder lists a transcript and a folder. *)
Definition twoTranscripts : Environment := sameListing [transcriptFile; transcriptFile].

Definition nestedFolders : Environment := sameListing [transcriptFile; someFolder].

(** What [ListFiles] returns for [twoTranscripts] when one result is
    asked for: the search stops at the first file. *)
Definition oneTranscript : list FileInfo :=
  [fileInfoOf transcriptFile "audio.TRANSCRIPT"].

Definition afterOneListing : State (env := twoTranscripts) :=
  record (env := twoTranscripts) (CallFilesList (listCall "'root' in parents")) ()
    (start (H := twoTranscripts) ()).

(** A service that knows [transcriptFile] and not its parent. *)
Definition orphanFile : Environment := memoryService [] [transcriptFile] [].

(** The ids of the downloads asked for among the calls, and the paths of
    the files created, in the order of the calls. *)
Definition downloadsOf (cs : list Call) : list string :=
  omap (λ c, match c with CallDownload fileId => Some fileId | _ => None end) cs.

Definition createdPaths (cs : list Call) : list string :=
  omap (λ c, match c with CallCreate path => Some path | _ => None end) cs.

(** A service in which the download of the file [f2] fails, and two
    entries as [ListFiles] makes them. *)
Definition secondBroken : Environment := memoryService [] [] ["f2"].

Definition firstEntry : FileInfo :=
  {| ID := "f1"; Name := "a.TRANSCRIPT"; Path := "rec/a.TRANSCRIPT";
     MimeType := "text/plain"; ModifiedTime := "2025-04-10T17:27:28Z" |}.

Definition secondEntry : FileInfo :=
  {| ID := "f2"; Name := "b.TRANSCRIPT"; Path := "rec/b.TRANSCRIPT";
     MimeType := "text/plain"; ModifiedTime := "2025-04-09T10:00:00Z" |}.

(** The flags that [main] goes on with: a pattern, and the two path flags
    both left out or making a transformer. *)
Definition acceptsFlags `{RegexpEngine} (f : flags.Flags) : Prop :=
  flags.pattern f ≠ ""
  ∧ ((flags.pathPattern f = "" ∧ flags.pathFormat f = "")
     ∨ ∃ t, NewPathTransformer (flags.pathPattern f) (flags.pathFormat f) = Ok t).

(** The calls of a dry run. *)
Definition dryRunCall (c : Call) : bool :=
  match c with
  | CallNewService _ | CallFilesGet _ | CallFilesList _ => true
  | _ => false
  end.

(** Flags for the files named [TRANSCRIPT], which are to be saved under
    their name with the extension [txt]. *)
Definition transcriptFlags (dryRun : bool) : flags.Flags :=
  {| flags.credentials := "credentials.json";
     flags.folderID := "root";
     flags.pattern := "TRANSCRIPT";
     flags.maxDepth := -1;
     flags.dryRun := dryRun;
     flags.outputDir := "output";
     flags.verbose := false;
     flags.maxResults := 0;
     flags.pathPattern := "(?P<name>[^.]+)\.TRANSCRIPT$";
     flags.pathFormat := "${name}.txt" |}.



(** A service whose root holds one folder, which is empty, and whose
    every other listing fails: the broader search for the empty folder
    of depth one fails. *)
Definition failingSearch : Environment :=
  {| World := unit;
     Body := unit;
     OpenFile := unit;
     NewService := λ _ w, (None, w);
     FilesGetDo := λ _ w, (inr "notFound", w);
     FilesListDo := λ c w,
       if bool_decide (drivev3.Q c = "'root' in parents") then (inl [someFolder], w)
       else if bool_decide (drivev3.Q c = "'d1' in parents") then (inl [], w)
       else (inr "searchFailed", w);
     FilesGetDownload := λ _ w, (inl (), w);
     MkdirAll := λ _ _ w, (None, w);
     Create := λ _ w, (inl (), w);
     Copy := λ _ _ w, (None, w);
     CloseBody := λ _ w, w;
     CloseFile := λ _ w, w;
     Join := joinWithSlash;
     Dir := λ path, path |}.

(** ** One pass of the substitution, in the words of the specification *)

(** Following the specification's words, not the code: a pass over a text
    replaces the non-overlapping occurrences of [old], from left to
    right, by [new].  A text without [old] is left as it is; otherwise
    the text before the leftmost occurrence is kept, the occurrence
    becomes [new], which is not read again, and the pass goes on with
    the text after the occurrence. *)
Inductive SinglePass (old new : string) : string → string → Prop :=
  | pass_none (s : string) :
      strings.Contains s old = false → SinglePass old new s s
  | pass_leftmost (pre post out : string) :
      (∀ pre' post', pre +:+ old +:+ post = pre' +:+ old +:+ post' →
                     String.length pre ≤ String.length pre') →
      SinglePass old new post out →
      SinglePass old new (pre +:+ old +:+ post) (pre +:+ new +:+ out).

(** One such pass for each entry, in the order of the entries, each over
    the text that the pass before it has left. *)
Fixpoint OnePassEach (entries : list (string * string))
    (s out : string) : Prop :=
  match entries with
  | [] => out = s
  | (name, value) :: rest =>
      ∃ s', SinglePass (placeholder name) value s s' ∧ OnePassEach rest s' out
  end.

(** ** More transformers with a group that takes no part *)

(** The format of [tEither] in pieces. *)
Definition eitherPieces : list Piece := [Placeholder "a"; Placeholder "b"].

(** Two groups bear the name [a]; the first takes no part in a match of
    [y]. *)
Definition reRepeated : FragmentRegexp := Eval vm_compute in MustCompile "(?P<a>x)?(?P<a>y)".

Definition tRepeated : PathTransformer (engine := fragment) :=
  {| pattern := reRepeated; format := "${a}" |}.

(** The pattern of [tEither] with a format in which the text around the
    placeholder of [a] makes that placeholder again. *)
Definition tJoined : PathTransformer (engine := fragment) :=
  {| pattern := reEither; format := "$${a}{a}" |}.

(** The group [v] can capture the text of the placeholder of [a]. *)
Definition reCarried : FragmentRegexp :=
  Eval vm_compute in MustCompile "(?P<v>[^-]*)-(?:(?P<a>x)|y)".

Definition tCarried : PathTransformer (engine := fragment) :=
  {| pattern := reCarried; format := "${v}${a}" |}.

(** * Properties *)

(** ** Strings *)

Section StringFacts.

Import strings.

Lemma append_nil (s : string) : "" +:+ s = s.
Proof. reflexivity. Qed.

Lemma append_cons (c : ascii) (a s : string) : String c a +:+ s = String c (a +:+ s).
Proof. reflexivity. Qed.

Lemma append_assoc (a b c : string) : (a +:+ b) +:+ c = a +:+ (b +:+ c).
Proof. induction a as [|x a IH]; rewrite ?append_cons, ?append_nil; congruence. Qed.

Lemma HasPrefix_spec (s p : string) :
  HasPrefix s p = true ↔ ∃ r, s = p +:+ r.
Proof.
  revert s. induction p as [|a p IH]; intros s; cbn [HasPrefix].
  - split; [eauto | done].
  - destruct s as [|b s].
    + split; [done | intros [r Hr]; discriminate].
    + destruct (decide (a = b)) as [->|Hne].
      * rewrite IH. split; intros [r Hr]; exists r;
          rewrite append_cons in *; congruence.
      * split; [done | intros [r Hr]; rewrite append_cons in Hr; congruence].
Qed.

Lemma Contains_spec (s sub : string) :
  Contains s sub = true ↔ ∃ pre post, s = pre +:+ sub +:+ post.
Proof.
  induction s as [|c s IH].
  - cbn [Contains]. rewrite orb_false_r, HasPrefix_spec. split.
    + intros [r Hr]. by exists "", r.
    + intros [pre [post Hs]]. destruct pre; [by exists post | discriminate].
  - cbn [Contains]. rewrite orb_true_iff, IH, HasPrefix_spec. split.
    + intros [[r Hr] | [pre [post Hs]]].
      * by exists "", r.
      * exists (String c pre), post. rewrite append_cons. by rewrite Hs.
    + intros [pre [post Hs]]. destruct pre as [|d pre].
      * left. by exists post.
      * right. exists pre, post. rewrite append_cons in Hs. congruence.
Qed.

Lemma Contains_false_cons (c : ascii) (s sub : string) :
  Contains (String c s) sub = false →
  HasPrefix (String c s) sub = false ∧ Contains s sub = false.
Proof. cbn [Contains]. by rewrite orb_false_iff. Qed.

(** A string that contains [a +:+ b] contains [a] and contains [b]. *)
Lemma Contains_app_inv (s a b : string) :
  Contains s (a +:+ b) = true → Contains s a = true ∧ Contains s b = true.
Proof.
  rewrite !Contains_spec. intros [pre [post ->]]. split.
  - exists pre, (b +:+ post). by rewrite append_assoc.
  - exists (pre +:+ a), post. by rewrite !append_assoc.
Qed.

Lemma replaceScan_skip (a s old new : string) :
  replaceScan (String.length a) (a +:+ s) old new = replaceScan 0 s old new.
Proof.
  induction a as [|c a IH]; rewrite ?append_cons, ?append_nil; [done|].
  cbn [String.length replaceScan]. done.
Qed.

(** The pass over a string whose first occurrence of [old] is known: the
    text before it is kept, the occurrence becomes [new], and the scan
    resumes after the occurrence, not inside [new]. *)
Lemma Replace_first (c : ascii) (old' pre post new : string) :
  Contains pre (String c "") = false →
  Replace (pre +:+ String c old' +:+ post) (String c old') new
  = pre +:+ new +:+ Replace post (String c old') new.
Proof.
  unfold Replace. induction pre as [|d pre IH]; intros Hpre.
  - rewrite !append_nil, append_cons. cbn [replaceScan].
    assert (HasPrefix (String c (old' +:+ post)) (String c old') = true) as ->.
    { apply HasPrefix_spec. by exists post. }
    replace (String.length (String c old') - 1) with (String.length old')
      by (cbn [String.length]; lia).
    by rewrite replaceScan_skip.
  - apply Contains_false_cons in Hpre as [Hd Hpre].
    rewrite !(append_cons d). cbn [replaceScan].
    assert (HasPrefix (String d (pre +:+ String c old' +:+ post)) (String c old') = false) as ->.
    { cbn [HasPrefix] in *. destruct (decide (c = d)); [done | done]. }
    by rewrite IH.
Qed.

(** Text that is placeholder-shaped holds both marks that the final test
    of [Transform] looks for. *)
Lemma placeholderShaped_unreplaced (s : string) :
  placeholderShaped s = true → unreplaced s = true.
Proof.
  unfold unreplaced. induction s as [|c s IH]; [done|].
  cbn [placeholderShaped]. rewrite orb_true_iff, andb_true_iff.
  intros [[Hopen Hclose] | Hrest].
  - apply andb_true_iff. split.
    + cbn [Contains]. by rewrite Hopen.
    + destruct s as [|d rest]; [done|].
      cbn [Contains]. rewrite Hclose. by rewrite !orb_true_r.
  - apply IH, andb_true_iff in Hrest as [H1 H2].
    cbn [Contains]. rewrite H1, H2. by rewrite !orb_true_r.
Qed.

End StringFacts.

(** ** The [captures] map *)

Section CollectFacts.

Implicit Types (names : list string) (captures : gmap string string).

(** With a [match] as long as the list of names, no index is out of
    range. *)
Lemma collect_in_range names : ∀ i (match_ : list string) captures,
  i + length names ≤ length match_ →
  is_Some (collect i names match_ captures).
Proof.
  induction names as [|name rest IH]; intros i match_ captures Hlen; cbn [collect].
  - by eexists.
  - cbn [length] in Hlen.
    destruct (bool_decide (i ≠ 0) && bool_decide (name ≠ "")).
    + destruct (lookup_lt_is_Some_2 match_ i) as [value ->]; [lia|].
      apply IH. lia.
    + apply IH. lia.
Qed.

(** A name that no group bears keeps the entry it had. *)
Lemma collect_other names name : ∀ i (match_ : list string) captures captures',
  collect i names match_ captures = Some captures' →
  (∀ j, names !! j ≠ Some name) →
  captures' !! name = captures !! name.
Proof.
  induction names as [|name' rest IH]; intros i match_ captures captures' Hc Hno;
    cbn [collect] in Hc.
  - by simplify_eq.
  - assert (name' ≠ name) by (intros ->; by apply (Hno 0)).
    assert (∀ j, rest !! j ≠ Some name) by (intros j; apply (Hno (S j))).
    destruct (bool_decide (i ≠ 0) && bool_decide (name' ≠ "")); [|by eapply IH].
    destruct (match_ !! i) as [value|]; [|done].
    erewrite IH by done. by rewrite lookup_insert_ne.
Qed.

(** The entry of a name is the text of the last group that bears it. *)
Lemma collect_lookup names name : ∀ k i (match_ : list string) captures captures' value,
  collect i names match_ captures = Some captures' →
  names !! k = Some name → i + k ≠ 0 → name ≠ "" →
  match_ !! (i + k) = Some value →
  (∀ j, k < j → names !! j ≠ Some name) →
  captures' !! name = Some value.
Proof.
  induction names as [|name' rest IH];
    intros k i match_ captures captures' value Hc Hk Hik Hname Hv Hlast; [done|].
  cbn [collect] in Hc. destruct k as [|k].
  - cbn in Hk. simplify_eq. rewrite Nat.add_0_r in Hik, Hv.
    rewrite !bool_decide_eq_true_2 in Hc by done. cbn in Hc. rewrite Hv in Hc.
    erewrite collect_other; [by rewrite lookup_insert_eq | done |].
    intros j. apply (Hlast (S j)). lia.
  - cbn in Hk.
    assert (∀ j, k < j → rest !! j ≠ Some name).
    { intros j ?. apply (Hlast (S j)). lia. }
    replace (i + S k) with (S i + k) in Hv by lia.
    destruct (bool_decide (i ≠ 0) && bool_decide (name' ≠ "")).
    + destruct (match_ !! i); [|done]. eapply (IH k (S i)); eauto; lia.
    + eapply (IH k (S i)); eauto; lia.
Qed.

End CollectFacts.

(** ** [Transform] *)

Section TransformFacts.

Context `{engine : RegexpEngine}.

Implicit Types (t : PathTransformer) (ord : RangeOrder) (path : string).

Lemma FindStringSubmatch_length (re : Regexp) (s : string) (match_ : list string) :
  FindStringSubmatch re s = Some match_ →
  length match_ = 1 + NumSubexp re ∧ length (SubexpNames re) ≤ length match_.
Proof.
  unfold FindStringSubmatch, NumSubexp. destruct (doExecute re s); [|done].
  intros Heq. apply (inj Some) in Heq. subst match_.
  rewrite length_fmap, length_seq. lia.
Qed.

Lemma FindStringSubmatch_matches (re : Regexp) (s : string) :
  FindStringSubmatch re s = None ↔ doExecute re s = None.
Proof. unfold FindStringSubmatch. by destruct (doExecute re s). Qed.

(** The text reported for a group: the bytes of its span, or the empty
    string when the group took no part in the match. *)
Lemma FindStringSubmatch_lookup (re : Regexp) (s : string) (a : list span)
    (match_ : list string) (i : nat) :
  doExecute re s = Some a →
  FindStringSubmatch re s = Some match_ →
  i < length (SubexpNames re) →
  match_ !! i = Some match a !! i with
                     | Some (Some (b, e)) => String.substring b (e - b) s
                     | _ => EmptyString
                     end.
Proof.
  unfold FindStringSubmatch, NumSubexp. intros -> Heq Hi.
  apply (inj Some) in Heq. subst match_.
  rewrite list_lookup_fmap, lookup_seq_lt by lia. done.
Qed.

(** The loop that fills the map never reads past the end of the match. *)
Lemma captured_matches t path :
  doExecute (pattern t) path ≠ None → is_Some (captured t path).
Proof.
  intros Hm. unfold captured.
  destruct (FindStringSubmatch (pattern t) path) as [match_|] eqn:Hf.
  - apply collect_in_range. apply FindStringSubmatch_length in Hf. lia.
  - by apply FindStringSubmatch_matches in Hf.
Qed.

Lemma captured_None t path :
  captured t path = None ↔ doExecute (pattern t) path = None.
Proof.
  split.
  - intros Hc. destruct (doExecute (pattern t) path) eqn:Hd; [|done].
    destruct (captured_matches t path) as [c Hc']; [by rewrite Hd | congruence].
  - intros Hd%FindStringSubmatch_matches. unfold captured. by rewrite Hd.
Qed.

(** [Transform], read off its definition: no match, or the substituted
    text, rejected when it still holds both marks of a placeholder. *)
Lemma Transform_unfold ord t path :
  Transform ord t path =
  match captured t path with
  | None => Err (NoMatch path)
  | Some captures =>
      let result := substitute (ord (map_to_list captures)) (format t) in
      if unreplaced result then Err (UnresolvedPlaceholder result) else Ok result
  end.
Proof.
  destruct (captured t path) as [captures|] eqn:Hc.
  - unfold captured in Hc. unfold Transform.
    destruct (FindStringSubmatch (pattern t) path); [|done]. by rewrite Hc.
  - apply captured_None, FindStringSubmatch_matches in Hc.
    unfold Transform. by rewrite Hc.
Qed.

Lemma Transform_no_panic ord t path : Transform ord t path ≠ Panic.
Proof.
  rewrite Transform_unfold. destruct (captured t path); [|done].
  cbn. by destruct (unreplaced _).
Qed.

End TransformFacts.

(** ** The loop of [main] *)

Section LoopFacts.

Context `{engine : RegexpEngine}.

(** After the files in [done] have been dealt with, the loop finishes the
    others one by one and returns. *)
Lemma transformLoop_spec (ords : nat → RangeOrder) (t : PathTransformer) :
  ∀ (todo done : list FileInfo),
    transformLoop ords t (length todo) (length done) (done ++ todo)
    = Ok (done ++ imap (λ k f, finalPath (ords (length done + k)) t f) todo).
Proof.
  induction todo as [|f todo IH]; intros done; cbn [length transformLoop].
  - done.
  - rewrite list_lookup_middle by done. rewrite imap_cons.
    unfold finalPath at 1. rewrite Nat.add_0_r.
    assert (imap ((λ k f, finalPath (ords (length done + k)) t f) ∘ S) todo
            = imap (λ k f, finalPath (ords (S (length done) + k)) t f) todo) as ->.
    { apply imap_ext. intros k x _. cbn. f_equal. f_equal. lia. }
    destruct (Transform (ords (length done)) t (Path f)) as [newPath|e|] eqn:Ht.
    + replace (length done) with (length done + 0) at 2 by lia.
      rewrite insert_app_r. cbn [insert list_insert].
      specialize (IH (done ++ [setPath f newPath])).
      rewrite length_app, <- app_assoc in IH. cbn [length app] in IH.
      replace (length done + 1) with (S (length done)) in IH by lia.
      rewrite IH. by rewrite <- app_assoc.
    + specialize (IH (done ++ [f])).
      rewrite length_app, <- app_assoc in IH. cbn [length app] in IH.
      replace (length done + 1) with (S (length done)) in IH by lia.
      rewrite IH. by rewrite <- app_assoc.
    + by apply Transform_no_panic in Ht.
Qed.

Lemma transformFilePaths_spec (ords : nat → RangeOrder) (t : PathTransformer)
    (files : list FileInfo) :
  transformFilePaths ords (Some t) files
  = Ok (imap (λ i f, finalPath (ords i) t f) files).
Proof. exact (transformLoop_spec ords t files []). Qed.

End LoopFacts.

(** ** The fragment engine looks for a match at every offset *)

Section FragmentFacts.

Import backtrack.

Lemma orElse_None (a b : option (list span)) :
  orElse a b = None ↔ a = None ∧ b = None.
Proof. destruct a; cbn; split; (done || by intros [? ?]). Qed.

Lemma search_None (r : syntax.Regex) (ncap : nat) : ∀ (rest : string) (pos : nat),
  search r ncap pos rest = None ↔
  ∀ pre post, rest = pre +:+ post → matchAt r ncap (pos + String.length pre) post = None.
Proof.
  induction rest as [|c rest IH]; intros pos; cbn [search]; rewrite orElse_None.
  - split.
    + intros [Hm _] pre post Hs. destruct pre; [|discriminate].
      rewrite append_nil in Hs. subst post. cbn. by rewrite Nat.add_0_r.
    + intros Hall. split; [|done].
      specialize (Hall "" "" eq_refl). cbn in Hall. by rewrite Nat.add_0_r in Hall.
  - rewrite IH. split.
    + intros [Hm Hrest] pre post Hs. destruct pre as [|d pre].
      * rewrite append_nil in Hs. subst post. cbn. by rewrite Nat.add_0_r.
      * rewrite append_cons in Hs. simplify_eq. cbn [String.length].
        replace (pos + S (String.length pre)) with (S pos + String.length pre) by lia.
        by apply Hrest.
    + intros Hall. split.
      * specialize (Hall "" (String c rest) eq_refl). cbn in Hall.
        by rewrite Nat.add_0_r in Hall.
      * intros pre post ->.
        specialize (Hall (String c pre) post eq_refl). cbn [String.length] in Hall.
        by replace (pos + S (String.length pre)) with (S pos + String.length pre)
          in Hall by lia.
Qed.

End FragmentFacts.

(** ** Compiling a transformer *)

Section CompileFacts.

Context `{engine : RegexpEngine}.

Lemma hasNamedGroup_spec (names : list string) (f : string) :
  hasNamedGroup names f = true ↔
  ∃ g, g ∈ names ∧ g ≠ "" ∧ strings.Contains f (placeholder g) = true.
Proof.
  induction names as [|name rest IH]; cbn [hasNamedGroup].
  - split; [done | intros (g & Hg & _); by apply elem_of_nil in Hg].
  - destruct (bool_decide (name ≠ "") && strings.Contains f (placeholder name)) eqn:Hhead.
    + apply andb_true_iff in Hhead as [Hne%bool_decide_eq_true Hc].
      split; [|done]. intros _. exists name. split; [left | done].
    + rewrite IH. split.
      * intros (g & Hg & Hne & Hc). exists g. split; [by right | done].
      * intros (g & Hg & Hne & Hc). exists g.
        apply elem_of_cons in Hg as [->|Hg]; [|done].
        rewrite Hc, bool_decide_eq_true_2 in Hhead by done. done.
Qed.

Lemma NewPathTransformer_compiled (p f : string) (re : Regexp) :
  p ≠ "" → f ≠ "" → Compile p = inl re →
  NewPathTransformer p f =
  if hasNamedGroup (SubexpNames re) f then Ok {| pattern := re; format := f |}
  else Err TemplateUnused.
Proof.
  intros Hp Hf Hre. unfold NewPathTransformer.
  rewrite !bool_decide_eq_false_2 by done. cbn [orb]. rewrite Hre.
  by destruct (hasNamedGroup (SubexpNames re) f).
Qed.

End CompileFacts.

(** ** The cases of [path_test.go], run on the fragment engine *)

Section PackageTests.

Let zoomPath : string :=
  "Zoom Recordings/apr-10-2025-17-27-28-AI_TEAM_OFFICE_ROOM-2/audio_transcript.TRANSCRIPT".
Let roomPath : string :=
  "apr-10-2025-17-27-28-AI_TEAM_OFFICE_ROOM-2/audio_transcript.TRANSCRIPT".

Example test_empty_pattern :
  failsWith (NewPathTransformer (engine := fragment) "" "${date}.txt")
            "both pattern and format must be non-empty" = true.
Proof. vm_compute; reflexivity. Qed.

Example test_empty_format :
  failsWith (NewPathTransformer (engine := fragment) "(?P<date>\d{4}-\d{2}-\d{2})" "")
            "both pattern and format must be non-empty" = true.
Proof. vm_compute; reflexivity. Qed.

Example test_invalid_regex_pattern :
  failsWith (NewPathTransformer (engine := fragment) "(?P<date>[" "${date}.txt")
            "invalid regex pattern" = true.
Proof. vm_compute; reflexivity. Qed.

Example test_valid_pattern_and_format :
  failsWith (NewPathTransformer (engine := fragment) "(?P<date>\d{4}-\d{2}-\d{2})" "${date}.txt")
            "" = false.
Proof. vm_compute; reflexivity. Qed.

Example test_simple_date_extraction :
  compileAndTransform (H := fragment) stored
    "Zoom Recordings/(?P<date>[^/]+(?:-[^/]+){4})/.*\.TRANSCRIPT$" "${date}.TRANSCRIPT" zoomPath
  = Ok "apr-10-2025-17-27-28-AI_TEAM_OFFICE_ROOM-2.TRANSCRIPT".
Proof. vm_compute; reflexivity. Qed.

Example test_multiple_capture_groups :
  compileAndTransform (H := fragment) stored
    "Zoom Recordings/(?P<date>[^/]+(?:-[^/]+){4})/(?P<type>[^/]+)_transcript\.TRANSCRIPT$"
    "${date}_${type}.TRANSCRIPT" zoomPath
  = Ok "apr-10-2025-17-27-28-AI_TEAM_OFFICE_ROOM-2_audio.TRANSCRIPT".
Proof. vm_compute; reflexivity. Qed.

Example test_no_match :
  failsWith (compileAndTransform (H := fragment) stored
               "Zoom Recordings/(?P<date>[^/]+(?:-[^/]+){4})/.*\.TRANSCRIPT$"
               "${date}.TRANSCRIPT" "invalid/path/file.txt")
            "path does not match pattern" = true.
Proof. vm_compute; reflexivity. Qed.

Example test_missing_placeholder_replacement :
  failsWith (compileAndTransform (H := fragment) stored
               "Zoom Recordings/(?P<date>[^/]+(?:-[^/]+){4})/.*\.TRANSCRIPT$"
               "${date}_${type}.TRANSCRIPT" zoomPath)
            "some placeholders in format string were not replaced" = true.
Proof. vm_compute; reflexivity. Qed.

Example test_extract_date_from_path :
  compileAndTransform (H := fragment) stored
    "(?P<date>[^-]+-[^-]+-[^-]+-[^-]+-[^-]+-[^-]+)-.*\.TRANSCRIPT$" "${date}.TRANSCRIPT" roomPath
  = Ok "apr-10-2025-17-27-28.TRANSCRIPT".
Proof. vm_compute; reflexivity. Qed.

Example test_extract_date_and_room :
  compileAndTransform (H := fragment) stored
    "(?P<date>[^-]+-[^-]+-[^-]+-[^-]+-[^-]+-[^-]+)-(?P<room>[^/]+)/.*\.TRANSCRIPT$"
    "${date}-${room}.TRANSCRIPT" roomPath
  = Ok "apr-10-2025-17-27-28-AI_TEAM_OFFICE_ROOM-2.TRANSCRIPT".
Proof. vm_compute; reflexivity. Qed.

Example test_extract_room_name_only :
  compileAndTransform (H := fragment) stored
    ".*-(?P<room>AI_[^/]+)/.*\.TRANSCRIPT$" "${room}.TRANSCRIPT" roomPath
  = Ok "AI_TEAM_OFFICE_ROOM-2.TRANSCRIPT".
Proof. vm_compute; reflexivity. Qed.

Example test_format_string_missing_captured_variables :
  failsWith (compileAndTransform (H := fragment) stored
               "(?P<date>[^-]+-[^-]+-[^-]+-[^-]+-[^-]+-[^-]+)-(?P<room>[^/]+)/.*\.TRANSCRIPT$"
               "-.TRANSCRIPT" roomPath)
            "format string does not use any captured variables" = true.
Proof. vm_compute; reflexivity. Qed.

Example test_extract_with_different_output_format :
  compileAndTransform (H := fragment) stored
    "(?P<date>[^-]+-[^-]+-[^-]+-[^-]+-[^-]+-[^-]+)-[^/]+/(?P<type>[^_]+)_.*\.TRANSCRIPT$"
    "${type}_${date}.TRANSCRIPT" roomPath
  = Ok "audio_apr-10-2025-17-27-28.TRANSCRIPT".
Proof. vm_compute; reflexivity. Qed.

End PackageTests.

(** * The properties of the specification *)

(** C8: [NewPathTransformer] with an empty pattern, whatever the format,
    and with an empty format, whatever the pattern, fails with
    [InvalidArguments].  This holds for every engine, so whatever
    [Compile] would say of the pattern and whether or not the format uses
    a group: the test for empty arguments comes first. *)
Theorem C8_empty_arguments `{RegexpEngine} :
  (∀ f, NewPathTransformer "" f = Err InvalidArguments) ∧
  (∀ p, NewPathTransformer p "" = Err InvalidArguments).
Proof.
  split; intros x; unfold NewPathTransformer.
  - done.
  - by rewrite (bool_decide_eq_true_2 ("" = "")), orb_true_r.
Qed.

(** C4: for a non-empty pattern [p] that compiles to [re] and a non-empty
    format [f], [NewPathTransformer] succeeds exactly when [f] contains the
    placeholder of some named group of [re], and then wraps [re] and [f]
    as they are; otherwise it fails with [TemplateUnused].  In particular
    a format that contains no placeholder at all fails with
    [TemplateUnused], whatever groups the pattern declares. *)
Theorem C4_format_must_use_a_group `{RegexpEngine} (p f : string) (re : Regexp) :
  p ≠ "" → f ≠ "" → Compile p = inl re →
  let used := ∃ g, g ∈ SubexpNames re ∧ g ≠ ""
                   ∧ strings.Contains f (placeholder g) = true in
  ((∃ t, NewPathTransformer p f = Ok t) ↔ used) ∧
  (used → NewPathTransformer p f = Ok {| pattern := re; format := f |}) ∧
  (¬ used → NewPathTransformer p f = Err TemplateUnused) ∧
  ((∀ name, strings.Contains f (placeholder name) = false) →
   NewPathTransformer p f = Err TemplateUnused).
Proof.
  intros Hp Hf Hre used.
  rewrite (NewPathTransformer_compiled p f re Hp Hf Hre).
  pose proof (hasNamedGroup_spec (SubexpNames re) f) as Hspec.
  fold used in Hspec.
  destruct (hasNamedGroup (SubexpNames re) f).
  - assert used as Hu by by apply Hspec.
    repeat split; try done.
    + by eexists.
    + intros Hnone. destruct Hu as (g & _ & _ & Hc). by rewrite Hnone in Hc.
  - assert (¬ used) as Hu by (intros Hu%Hspec; done).
    repeat split; try done.
    + by intros [t Ht].
Qed.

Lemma C4_witness :
  "(?P<a>x)" ≠ "" ∧ "${a}" ≠ "" ∧ Compile (RegexpEngine := fragment) "(?P<a>x)" = inl reA ∧
  let used := ∃ g, g ∈ SubexpNames reA ∧ g ≠ ""
                   ∧ strings.Contains "${a}" (placeholder g) = true in
  ((∃ t, NewPathTransformer "(?P<a>x)" "${a}" = Ok t) ↔ used) ∧
  (used → NewPathTransformer "(?P<a>x)" "${a}" = Ok {| pattern := reA; format := "${a}" |}) ∧
  (¬ used → NewPathTransformer "(?P<a>x)" "${a}" = Err TemplateUnused) ∧
  ((∀ name, strings.Contains "${a}" (placeholder name) = false) →
   NewPathTransformer "(?P<a>x)" "${a}" = Err TemplateUnused).
Proof.
  split; [done|]. split; [done|]. split; [vm_compute; reflexivity|].
  apply (C4_format_must_use_a_group (H := fragment) "(?P<a>x)" "${a}" reA);
    [done | done | vm_compute; reflexivity].
Defined.

(** C5: [Transform] fails with [NoMatch] exactly when the engine finds no
    match of the pattern in the input, and the error carries the input.
    The pattern and the input go to the engine as they are: no anchor is
    added.  For the fragment engine, finding no match means that the
    expression matches at no offset of the input, and an expression
    without anchors does match in the middle of a longer input. *)
Theorem C5_no_match :
  (∀ `{RegexpEngine} (ord : RangeOrder) (t : PathTransformer) (path : string),
     (Transform ord t path = Err (NoMatch path) ↔ doExecute (pattern t) path = None)
     ∧ (∀ p, Transform ord t path = Err (NoMatch p) → p = path)) ∧
  (∀ (re : FragmentRegexp) (path : string),
     doExecute (RegexpEngine := fragment) re path = None ↔
     ∀ pre post, path = pre +:+ post →
       backtrack.matchAt (prog re) (NumSubexp re) (String.length pre) post = None) ∧
  (NewPathTransformer (engine := fragment) "(?P<n>b)" "${n}" = Ok tMiddle
   ∧ Transform stored tMiddle "abc" = Ok "b"
   ∧ Transform stored tMiddle "xyz" = Err (NoMatch "xyz")).
Proof.
  split; [|split].
  - intros engine ord t path. rewrite Transform_unfold, <- captured_None.
    destruct (captured t path) as [captures|]; cbn.
    + destruct (unreplaced _); split; try done; split; done.
    + split; [done|]. by intros p [= <-].
  - intros re path. cbn [doExecute fragment]. rewrite search_None. done.
  - split_and!; [reflexivity | vm_compute; reflexivity..].
Qed.

(** C10: when the pattern matches and the substituted text contains a
    dollar sign with an opening brace but no closing brace anywhere,
    [Transform] returns that text; the error for unreplaced placeholders
    is only raised for a text that contains both marks. *)
Theorem C10_open_placeholder_is_returned `{RegexpEngine}
    (ord : RangeOrder) (t : PathTransformer) (path : string) :
  doExecute (pattern t) path ≠ None →
  ∃ captures, captured t path = Some captures ∧
    let result := substitute (ord (map_to_list captures)) (format t) in
    (strings.Contains result "${" = true → strings.Contains result "}" = false →
     Transform ord t path = Ok result) ∧
    (∀ r, Transform ord t path = Err (UnresolvedPlaceholder r) →
          strings.Contains r "${" = true ∧ strings.Contains r "}" = true).
Proof.
  intros Hm. destruct (captured_matches t path Hm) as [captures Hc].
  exists captures. split; [done|]. intros result.
  rewrite Transform_unfold, Hc. cbn zeta. fold result. unfold unreplaced. split.
  - intros -> ->. done.
  - intros r. destruct (strings.Contains result "${") eqn:H1,
      (strings.Contains result "}") eqn:H2; cbn; intros [= <-]; done.
Qed.

Lemma C10_witness :
  doExecute (pattern tOpen) "x" ≠ None ∧
  ∃ captures, captured tOpen "x" = Some captures ∧
    let result := substitute (stored (map_to_list captures)) (format tOpen) in
    (strings.Contains result "${" = true → strings.Contains result "}" = false →
     Transform stored tOpen "x" = Ok result) ∧
    (∀ r, Transform stored tOpen "x" = Err (UnresolvedPlaceholder r) →
          strings.Contains r "${" = true ∧ strings.Contains r "}" = true).
Proof.
  split; [by vm_compute|].
  apply (C10_open_placeholder_is_returned (H := fragment) stored tOpen "x").
  by vm_compute.
Defined.

(** With the format [${a}${] the returned text does hold an open
    placeholder. *)
Example open_placeholder_returned :
  NewPathTransformer (engine := fragment) "(?P<a>x)" "${a}${" = Ok tOpen
  ∧ Transform stored tOpen "x" = Ok "x${".
Proof. split; [reflexivity | vm_compute; reflexivity]. Qed.

(** C1, as amended: when the pattern matches, [Transform] fails with
    [UnresolvedPlaceholder] exactly when the substituted text contains a
    dollar sign with an opening brace somewhere and a closing brace
    somewhere, in whatever order; the error carries that text.  Text
    with a closing brace after the opening marks is one case of it. *)
Theorem C1_unresolved_placeholder `{RegexpEngine}
    (ord : RangeOrder) (t : PathTransformer) (path : string) :
  doExecute (pattern t) path ≠ None →
  ∃ captures, captured t path = Some captures ∧
    let result := substitute (ord (map_to_list captures)) (format t) in
    ((∃ r, Transform ord t path = Err (UnresolvedPlaceholder r)) ↔
     strings.Contains result "${" = true ∧ strings.Contains result "}" = true) ∧
    (∀ r, Transform ord t path = Err (UnresolvedPlaceholder r) → r = result) ∧
    (placeholderShaped result = true →
     Transform ord t path = Err (UnresolvedPlaceholder result)).
Proof.
  intros Hm. destruct (captured_matches t path Hm) as [captures Hc].
  exists captures. split; [done|]. intros result.
  rewrite Transform_unfold, Hc. cbn zeta. fold result.
  pose proof (placeholderShaped_unreplaced result) as Hshaped.
  unfold unreplaced in *.
  destruct (strings.Contains result "${"), (strings.Contains result "}");
    cbn [andb] in *; split_and!.
  all: try (by split; intros [? ?]).
  all: try (by intros r [= <-]).
  all: try (by intros r ?).
  all: try (by intros ?%Hshaped).
  split; [done | intros _; by eexists].
Qed.

Lemma C1_witness :
  doExecute (pattern tClosedFirst) "x" ≠ None ∧
  ∃ captures, captured tClosedFirst "x" = Some captures ∧
    let result := substitute (stored (map_to_list captures)) (format tClosedFirst) in
    ((∃ r, Transform stored tClosedFirst "x" = Err (UnresolvedPlaceholder r)) ↔
     strings.Contains result "${" = true ∧ strings.Contains result "}" = true) ∧
    (∀ r, Transform stored tClosedFirst "x" = Err (UnresolvedPlaceholder r) → r = result) ∧
    (placeholderShaped result = true →
     Transform stored tClosedFirst "x" = Err (UnresolvedPlaceholder result)).
Proof.
  split; [by vm_compute|].
  apply (C1_unresolved_placeholder (H := fragment) stored tClosedFirst "x").
  by vm_compute.
Defined.

(** C1 as stated fails: with the pattern [(?P<a>x)] and the format
    [}${a}${], the input [x] gives the text [}x${], in which no closing
    brace follows the dollar sign and the opening brace; [Transform] fails
    with [UnresolvedPlaceholder] all the same. *)
Lemma C1_counterexample :
  NewPathTransformer (engine := fragment) "(?P<a>x)" "}${a}${" = Ok tClosedFirst ∧
  doExecute (pattern tClosedFirst) "x" ≠ None ∧
  map_to_list <$> captured tClosedFirst "x" = Some [("a", "x")] ∧
  substitute (stored [("a", "x")]) (format tClosedFirst) = "}x${" ∧
  placeholderShaped "}x${" = false ∧
  Transform stored tClosedFirst "x" = Err (UnresolvedPlaceholder "}x${") ∧
  ¬ ((∃ r, Transform stored tClosedFirst "x" = Err (UnresolvedPlaceholder r)) ↔
     placeholderShaped "}x${" = true).
Proof.
  assert (Transform stored tClosedFirst "x" = Err (UnresolvedPlaceholder "}x${"))
    as Hfails by (vm_compute; reflexivity).
  split_and!; [reflexivity | by vm_compute | vm_compute; reflexivity..| done |].
  intros [Hiff _]. by specialize (Hiff (ex_intro _ _ Hfails)).
Qed.

(** ** Every order at once *)

(** A result that every arrangement of the entries yields is the result
    whatever order the map is ranged over. *)
Lemma Transform_all_orders `{RegexpEngine} (t : PathTransformer) (path : string)
    (entries : list (string * string)) (expected : string) :
  map_to_list <$> captured t path = Some entries →
  forallb (λ l, bool_decide (substitute l (format t) = expected))
          (permutations entries) = true →
  unreplaced expected = false →
  ∀ ord : RangeOrder, Transform ord t path = Ok expected.
Proof.
  intros Hc Hall Hclean ord. rewrite Transform_unfold.
  destruct (captured t path) as [captures|]; [|done].
  cbn in Hc. injection Hc as <-. cbn zeta.
  assert (substitute (ord (map_to_list captures)) (format t) = expected) as ->.
  { rewrite forallb_forall in Hall.
    eapply bool_decide_eq_true, Hall, list_elem_of_In, permutations_Permutation.
    symmetry. apply range_perm. }
  by rewrite Hclean.
Qed.

(** ** The components of a date *)

(** C7: with the pattern and the format of the scenario, compilation
    succeeds, and [Transform] returns [2025-apr-10_17-27.TRANSCRIPT] for
    the input of the scenario, whatever the order in which the seven
    captures are substituted. *)
Theorem C7_date_components :
  NewPathTransformer (engine := fragment)
    "(?P<month>[^-]+)-(?P<day>[^-]+)-(?P<year>[^-]+)-(?P<hour>[^-]+)-(?P<minute>[^-]+)-(?P<second>[^-]+)-(?P<room>[^/]+)/.*\.TRANSCRIPT$"
    "${year}-${month}-${day}_${hour}-${minute}.TRANSCRIPT" = Ok tDate ∧
  ∀ ord : RangeOrder,
    Transform ord tDate
      "apr-10-2025-17-27-28-AI_TEAM_OFFICE_ROOM-2/audio_transcript.TRANSCRIPT"
    = Ok "2025-apr-10_17-27.TRANSCRIPT".
Proof.
  split.
  - change (NewPathTransformer (engine := fragment) datePattern dateFormat = Ok tDate).
    rewrite (NewPathTransformer_compiled (engine := fragment) _ _ reDate);
      [ by assert (hasNamedGroup (SubexpNames reDate) dateFormat = true) as ->
          by (vm_compute; reflexivity)
      | done | done | vm_compute; reflexivity ].
  - eapply Transform_all_orders; vm_compute; reflexivity.
Qed.

(** ** A captured text that names another group *)

(** C2: evaluation at the input [${b}-x], whose first part is captured as
    [a] and holds the placeholder of [b].  Ranging over the map with [a]
    first gives the output [x]; ranging over it with [b] first gives the
    error [UnresolvedPlaceholder]: two calls with the same transformer and
    the same input may differ. *)
Theorem C2_order_changes_the_result :
  NewPathTransformer (engine := fragment) "(?P<a>[^-]*)-(?P<b>.*)" "${a}" = Ok tAB ∧
  map_to_list <$> captured tAB "${b}-x" = Some [("a", "${b}"); ("b", "x")] ∧
  stored [("a", "${b}"); ("b", "x")] = [("a", "${b}"); ("b", "x")] ∧
  backwards [("a", "${b}"); ("b", "x")] = [("b", "x"); ("a", "${b}")] ∧
  Transform stored tAB "${b}-x" = Ok "x" ∧
  Transform backwards tAB "${b}-x" = Err (UnresolvedPlaceholder "${b}").
Proof. split_and!; [reflexivity | vm_compute; reflexivity..]. Qed.

(** A returned text never holds a whole placeholder. *)
Lemma Transform_Ok_clean `{RegexpEngine} (ord : RangeOrder) (t : PathTransformer)
    (path out : string) :
  Transform ord t path = Ok out →
  unreplaced out = false ∧
  ∃ captures, captured t path = Some captures
              ∧ out = substitute (ord (map_to_list captures)) (format t).
Proof.
  rewrite Transform_unfold. destruct (captured t path) as [captures|]; [|done].
  cbn zeta. destruct (unreplaced _) eqn:Hu; [done|]. intros [= <-]. eauto.
Qed.

Lemma unreplaced_placeholder (s name : string) :
  strings.Contains s (placeholder name) = true → unreplaced s = true.
Proof.
  intros Hc. unfold unreplaced.
  change (placeholder name) with ("${" +:+ (name +:+ "}")) in Hc.
  apply Contains_app_inv in Hc as [-> [_ ->]%Contains_app_inv]. done.
Qed.

(** C3 as stated fails at the same input: the text captured as [a] is
    the placeholder of [b]; ranging over the map with [a] first, the pass
    for [b] replaces it and the output is [x]; and under no order does an
    output hold that text. *)
Lemma C3_counterexample :
  NewPathTransformer (engine := fragment) "(?P<a>[^-]*)-(?P<b>.*)" "${a}" = Ok tAB ∧
  map_to_list <$> captured tAB "${b}-x" = Some [("a", "${b}"); ("b", "x")] ∧
  placeholderShaped "${b}" = true ∧
  Transform stored tAB "${b}-x" = Ok "x" ∧
  strings.Contains "x" "${b}" = false ∧
  ∀ (ord : RangeOrder) (out : string),
    Transform ord tAB "${b}-x" = Ok out → strings.Contains out "${b}" = false.
Proof.
  split_and!; [reflexivity | vm_compute; reflexivity..|].
  intros ord out [Hclean _]%Transform_Ok_clean.
  destruct (strings.Contains out "${b}") eqn:Hc; [|done].
  apply (unreplaced_placeholder out "b") in Hc. congruence.
Qed.

(** *** A pass of [Replace] is the pass of the specification *)

Section PassFacts.

Import strings.

Lemma length_append (a b : string) :
  String.length (a +:+ b) = String.length a + String.length b.
Proof.
  induction a as [|c a IH]; rewrite ?append_cons, ?append_nil; cbn [String.length]; lia.
Qed.

Lemma append_inj (a a' b b' : string) :
  a +:+ b = a' +:+ b' → String.length a = String.length a' → a = a' ∧ b = b'.
Proof.
  revert a'. induction a as [|c a IH]; intros [|c' a'] Heq Hlen; try done.
  rewrite !append_cons in Heq. injection Heq as -> Heq. cbn [String.length] in Hlen.
  destruct (IH a' Heq) as [-> ->]; [lia | done].
Qed.

(** The scan copies a text in which [old] does not occur. *)
Lemma replaceScan_none (s old new : string) :
  Contains s old = false → replaceScan 0 s old new = s.
Proof.
  induction s as [|c s IH]; [done|]. intros [Hp Hs]%Contains_false_cons.
  cbn [replaceScan]. rewrite Hp. by rewrite IH.
Qed.

(** The scan of a text in which [old] occurs: it copies the text before
    the leftmost occurrence, puts [new] for the occurrence and resumes
    after it. *)
Lemma replaceScan_leftmost (c : ascii) (old' new : string) : ∀ s : string,
  Contains s (String c old') = true →
  ∃ pre post,
    s = pre +:+ String c old' +:+ post ∧
    (∀ pre' post', s = pre' +:+ String c old' +:+ post' →
                   String.length pre ≤ String.length pre') ∧
    replaceScan 0 s (String c old') new
    = pre +:+ new +:+ replaceScan 0 post (String c old') new.
Proof.
  induction s as [|d s IH]; intros Hs.
  { cbn in Hs. done. }
  cbn [replaceScan]. destruct (HasPrefix (String d s) (String c old')) eqn:Hp.
  - apply HasPrefix_spec in Hp as [post Hpost]. exists "", post.
    split_and!; [done | intros; cbn; lia |].
    rewrite append_cons in Hpost. injection Hpost as -> ->.
    replace (String.length (String c old') - 1) with (String.length old')
      by (cbn [String.length]; lia).
    by rewrite replaceScan_skip.
  - cbn [Contains] in Hs. rewrite Hp in Hs. cbn [orb] in Hs.
    destruct (IH Hs) as (pre & post & -> & Hfirst & ->).
    exists (String d pre), post. split_and!; [done | | done].
    intros [|d' pre'] post' Heq.
    + exfalso. rewrite append_nil in Heq.
      assert (HasPrefix (String d (pre +:+ String c old' +:+ post)) (String c old') = true)
        as Hp' by (apply HasPrefix_spec; by exists post').
      congruence.
    + rewrite !append_cons in Heq. injection Heq as -> Heq.
      cbn [String.length]. apply le_n_S. by eapply Hfirst.
Qed.

Lemma replaceScan_SinglePass (c : ascii) (old' new : string) (s : string) :
  SinglePass (String c old') new s (replaceScan 0 s (String c old') new).
Proof.
  remember (String.length s) as n eqn:Hn. revert s Hn.
  induction n as [n IH] using lt_wf_ind. intros s ->.
  destruct (Contains s (String c old')) eqn:Hc.
  - destruct (replaceScan_leftmost c old' new s Hc) as (pre & post & -> & Hfirst & ->).
    apply pass_leftmost; [done|]. eapply IH; [|done].
    rewrite !length_append. cbn [String.length]. lia.
  - rewrite replaceScan_none by done. by apply pass_none.
Qed.

Lemma Replace_SinglePass (s name value : string) :
  SinglePass (placeholder name) value s (Replace s (placeholder name) value).
Proof.
  change (placeholder name) with (String "$" ("{" +:+ name +:+ "}")).
  apply replaceScan_SinglePass.
Qed.

(** The words of the specification leave one result only. *)
Lemma SinglePass_functional (old new s out : string) :
  SinglePass old new s out → ∀ out', SinglePass old new s out' → out = out'.
Proof.
  induction 1 as [s Hnone|pre post out Hfirst Hrest IH]; intros out' Hother.
  - inversion Hother as [|pre' post' out'' Hfirst' Hrest' Heq]; [done|]. subst.
    exfalso. rewrite (proj2 (Contains_spec _ _)) in Hnone by eauto. done.
  - inversion Hother as [s' Hnone' Heq|pre' post' out'' Hfirst' Hrest' Heq].
    + subst. exfalso. rewrite (proj2 (Contains_spec _ _)) in Hnone' by eauto. done.
    + assert (String.length pre' = String.length pre) as Hlen.
      { apply Nat.le_antisymm.
        - by apply (Hfirst' pre post).
        - by apply (Hfirst pre' post'). }
      destruct (append_inj pre' pre _ _ Heq Hlen) as [-> Htail].
      destruct (append_inj old old _ _ Htail eq_refl) as [_ ->].
      f_equal. f_equal. by apply IH.
Qed.

Lemma substitute_OnePassEach (entries : list (string * string)) : ∀ s : string,
  OnePassEach entries s (substitute entries s).
Proof.
  induction entries as [|[name value] rest IH]; intros s; cbn [OnePassEach]; [done|].
  exists (Replace s (placeholder name) value). split; [apply Replace_SinglePass | apply IH].
Qed.

End PassFacts.

(** C3, as amended: substitution is literal and makes one pass of
    [Replace] for each captured name, over the text that the pass before
    it has left.  A pass of [Replace] for a placeholder is, on every
    text, the pass of the specification: the non-overlapping occurrences
    of the placeholder are replaced from left to right, and the text put
    in is not read again; these words leave one result only.  When the
    pattern matches, the entries ranged over have distinct names and are
    those of the map, the text after one pass for each is what
    [Transform] tests, and it is returned only if it does not hold both
    marks of a placeholder: otherwise [Transform] fails with
    [UnresolvedPlaceholder], carrying that text. *)
Theorem C3_literal_single_pass `{RegexpEngine} (ord : RangeOrder) (t : PathTransformer)
    (path : string) :
  (∀ s name value,
     SinglePass (placeholder name) value s (strings.Replace s (placeholder name) value))
  ∧ (∀ old new s out out',
       SinglePass old new s out → SinglePass old new s out' → out = out')
  ∧ ∀ captures, captured t path = Some captures →
      NoDup (ord (map_to_list captures)).*1
      ∧ (∀ n v, (n, v) ∈ ord (map_to_list captures) ↔ captures !! n = Some v)
      ∧ ∃ result,
          OnePassEach (ord (map_to_list captures)) (format t) result
          ∧ Transform ord t path
            = if strings.Contains result "${" && strings.Contains result "}"
              then Err (UnresolvedPlaceholder result)
              else Ok result.
Proof.
  split_and!.
  - apply Replace_SinglePass.
  - intros old new s out out' Hout Hout'. by eapply SinglePass_functional.
  - intros captures Hc. split_and!.
    + rewrite (range_perm ord). apply NoDup_fst_map_to_list.
    + intros n v. rewrite (range_perm ord). apply elem_of_map_to_list.
    + exists (substitute (ord (map_to_list captures)) (format t)).
      split; [apply substitute_OnePassEach|].
      by rewrite Transform_unfold, Hc.
Qed.

(** The passes on two texts with more than one placeholder, and the run
    of [tAB] on [p-q]. *)
Lemma C3_witness :
  SinglePass (placeholder "month") "apr" "${year}-${month}_${month}"
    (strings.Replace "${year}-${month}_${month}" (placeholder "month") "apr")
  ∧ strings.Replace "${year}-${month}_${month}" (placeholder "month") "apr"
    = "${year}-apr_apr"
  ∧ captured tAB "p-q" = Some (list_to_map [("a", "p"); ("b", "q")])
  ∧ ∃ result,
      OnePassEach (stored (map_to_list (list_to_map [("a", "p"); ("b", "q")])))
        (format tAB) result
      ∧ Transform stored tAB "p-q"
        = if strings.Contains result "${" && strings.Contains result "}"
          then Err (UnresolvedPlaceholder result)
          else Ok result.
Proof.
  assert (captured tAB "p-q" = Some (list_to_map [("a", "p"); ("b", "q")])) as Hc
    by (vm_compute; reflexivity).
  destruct (C3_literal_single_pass (H := fragment) stored tAB "p-q")
    as (Hpass & _ & Hrun).
  split_and!; [apply Hpass | vm_compute; reflexivity | exact Hc |].
  apply (Hrun _ Hc).
Defined.

(** ** The caller *)

(** C9: the loop of [main] always runs to its end and returns a list of
    the same length.  The file at each index is the original one when its
    call of [Transform] fails, and the original one with its path replaced
    by the new path when the call succeeds; a path differs from the
    original one only after a successful call. *)
Theorem C9_failed_transform_keeps_path `{RegexpEngine} (ords : nat → RangeOrder)
    (t : PathTransformer) (files : list FileInfo) :
  ∃ files', transformFilePaths ords (Some t) files = Ok files' ∧
    length files' = length files ∧
    ∀ i f, files !! i = Some f →
      ∃ f', files' !! i = Some f' ∧
        (∀ e, Transform (ords i) t (Path f) = Err e → f' = f) ∧
        (∀ newPath, Transform (ords i) t (Path f) = Ok newPath → f' = setPath f newPath) ∧
        (Path f' ≠ Path f → ∃ newPath, Transform (ords i) t (Path f) = Ok newPath).
Proof.
  eexists. split; [apply transformFilePaths_spec|]. split; [apply length_imap|].
  intros i f Hf. exists (finalPath (ords i) t f). split.
  - by rewrite list_lookup_imap, Hf.
  - unfold finalPath. destruct (Transform (ords i) t (Path f)) as [p|e|].
    + split_and!; [done | by intros ? [= <-] | eauto].
    + split_and!; done.
    + split_and!; done.
Qed.

(** * Further properties of the package [transform] *)

(** ** One pass over a format made of pieces *)

Section PieceFacts.

Import strings.

Implicit Types (pieces : list Piece) (captures : gmap string string).

Lemma Contains_char_cons (c d : ascii) (s : string) :
  Contains (String d s) (String c "") = bool_decide (c = d) || Contains s (String c "").
Proof.
  cbn [Contains HasPrefix]. destruct (decide (c = d)) as [->|Hne].
  - by rewrite bool_decide_eq_true_2.
  - by rewrite bool_decide_eq_false_2.
Qed.

Lemma Contains_char_app (c : ascii) (a b : string) :
  Contains (a +:+ b) (String c "") = Contains a (String c "") || Contains b (String c "").
Proof.
  induction a as [|d a IH].
  - rewrite append_nil. by destruct b.
  - rewrite append_cons, !Contains_char_cons, IH. by rewrite orb_assoc.
Qed.

Lemma plain_app (a b : string) : plain (a +:+ b) ↔ plain a ∧ plain b.
Proof. unfold plain. rewrite Contains_char_app. apply orb_false_iff. Qed.

(** The scan copies text that lacks the first byte of [old] as it is. *)
Lemma Replace_skip (c : ascii) (old' a b new : string) :
  Contains a (String c "") = false →
  Replace (a +:+ b) (String c old') new = a +:+ Replace b (String c old') new.
Proof.
  unfold Replace. induction a as [|d a IH]; intros Ha; [done|].
  rewrite Contains_char_cons in Ha. apply orb_false_iff in Ha as [Hd Ha].
  apply bool_decide_eq_false in Hd.
  rewrite !append_cons. cbn [replaceScan HasPrefix].
  destruct (decide (c = d)); [done|]. by rewrite IH.
Qed.

Lemma Replace_plain (a b name new : string) :
  plain a →
  Replace (a +:+ b) (placeholder name) new = a +:+ Replace b (placeholder name) new.
Proof. apply (Replace_skip "$" ("{" +:+ name +:+ "}")). Qed.

(** The scan replaces the placeholder it looks for. *)
Lemma Replace_here (b name new : string) :
  Replace (placeholder name +:+ b) (placeholder name) new
  = new +:+ Replace b (placeholder name) new.
Proof.
  change (placeholder name) with (String "$" ("{" +:+ name +:+ "}")).
  by apply (Replace_first "$" ("{" +:+ name +:+ "}") "" b new).
Qed.

Lemma closing_prefix (n m rest : string) :
  Contains n "}" = false → Contains m "}" = false →
  HasPrefix (m +:+ "}" +:+ rest) (n +:+ "}") = true → n = m.
Proof.
  revert m. induction n as [|c n IH]; intros m Hn Hm Hp.
  - destruct m as [|d m]; [done|]. exfalso.
    rewrite Contains_char_cons in Hm. apply orb_false_iff in Hm as [Hd _].
    apply bool_decide_eq_false in Hd.
    rewrite append_nil, append_cons in Hp. cbn [HasPrefix] in Hp.
    by destruct (decide ("}"%char = d)).
  - rewrite Contains_char_cons in Hn. apply orb_false_iff in Hn as [Hc Hn].
    apply bool_decide_eq_false in Hc.
    destruct m as [|d m].
    + exfalso. rewrite append_nil, !append_cons in Hp. cbn [HasPrefix] in Hp.
      destruct (decide (c = "}"%char)); [congruence | done].
    + rewrite Contains_char_cons in Hm. apply orb_false_iff in Hm as [_ Hm].
      rewrite !append_cons in Hp. cbn [HasPrefix] in Hp.
      destruct (decide (c = d)) as [->|]; [|done]. f_equal. by apply IH.
Qed.

Lemma Replace_step (c d : ascii) (old' s new : string) :
  HasPrefix (String d s) (String c old') = false →
  Replace (String d s) (String c old') new = String d (Replace s (String c old') new).
Proof. intros Hp. unfold Replace. cbn [replaceScan]. by rewrite Hp. Qed.

Lemma placeholder_cons (name : string) :
  placeholder name = String "$" (String "{" (name +:+ "}")).
Proof. reflexivity. Qed.

(** The scan steps over the placeholder of another name. *)
Lemma Replace_other (b name other new : string) :
  wordy other → Contains name "}" = false → name ≠ other →
  Replace (placeholder other +:+ b) (placeholder name) new
  = placeholder other +:+ Replace b (placeholder name) new.
Proof.
  intros [Hplain Hclose] Hname Hne.
  rewrite !placeholder_cons, !append_cons. rewrite Replace_step.
  - f_equal. rewrite <- (append_cons "{"). rewrite Replace_skip; [done|].
    rewrite Contains_char_cons, Contains_char_app, Hplain. done.
  - destruct (HasPrefix _ _) eqn:Hp; [|done]. exfalso. apply Hne.
    cbn [HasPrefix] in Hp. rewrite !decide_True in Hp by done.
    rewrite append_assoc in Hp. by eapply closing_prefix.
Qed.

End PieceFacts.

Section SubstituteFacts.

Import strings.

Implicit Types (pieces : list Piece) (captures : gmap string string).

Lemma render_ext (f g : string → string) pieces :
  (∀ name, name ∈ placeholders pieces → f name = g name) →
  render f pieces = render g pieces.
Proof.
  induction pieces as [|[text|name] pieces IH]; intros Hfg; cbn [render].
  - done.
  - by rewrite IH.
  - rewrite (Hfg name) by left. rewrite IH; [done|].
    intros m Hm. apply Hfg. by right.
Qed.

(** One pass of the substitution loop over a format made of pieces: the
    placeholders of [name] become [value], everything else stays. *)
Lemma Replace_pieces pieces captures (name value : string) :
  captures !! name = None →
  map_Forall (λ _ v, plain v) captures →
  Contains name "}" = false →
  wellFormed pieces →
  Replace (render (resolved captures) pieces) (placeholder name) value
  = render (resolved (<[name := value]> captures)) pieces.
Proof.
  intros Hfresh Hvalues Hname Hwf.
  induction Hwf as [|[text|other] pieces Hpiece _ IH]; cbn [render].
  - done.
  - by rewrite Replace_plain, IH.
  - unfold resolved at 1 3. destruct (decide (name = other)) as [<-|Hne].
    + rewrite Hfresh, lookup_insert_eq. cbn [default]. by rewrite Replace_here, IH.
    + rewrite lookup_insert_ne by done.
      destruct (captures !! other) as [v|] eqn:Hv; cbn [default].
      * rewrite Replace_plain, IH; [done|]. by apply (Hvalues other).
      * by rewrite Replace_other, IH.
Qed.

Lemma substitute_pieces pieces : ∀ (entries : list (string * string)) captures,
  NoDup entries.*1 →
  Forall (λ '(name, value), captures !! name = None ∧ plain value
                            ∧ Contains name "}" = false) entries →
  map_Forall (λ _ v, plain v) captures →
  wellFormed pieces →
  substitute entries (render (resolved captures) pieces)
  = render (resolved (list_to_map entries ∪ captures)) pieces.
Proof.
  induction entries as [|[name value] entries IH]; intros captures Hnd Hent Hvalues Hwf.
  - cbn. by rewrite (left_id_L ∅ (∪)).
  - apply NoDup_cons in Hnd as [Hnotin Hnd].
    apply Forall_cons in Hent as [(Hfresh & Hvalue & Hname) Hent].
    change (substitute ((name, value) :: entries) ?s)
      with (substitute entries (Replace s (placeholder name) value)).
    rewrite Replace_pieces by done. rewrite IH; [| done | | | done].
    + f_equal. f_equal. cbn [list_to_map foldr uncurry fst snd].
      rewrite <- insert_union_l. symmetry. apply insert_union_r.
      by apply not_elem_of_list_to_map_1.
    + apply Forall_forall. intros [n v] Hin. rewrite Forall_forall in Hent.
      destruct (Hent _ Hin) as (Hn & ? & ?). split_and!; [|done..].
      rewrite lookup_insert_ne; [done|]. intros ->. apply Hnotin.
      by apply (list_elem_of_fmap_2 fst _ (n, v)).
    + by apply map_Forall_insert_2.
Qed.

End SubstituteFacts.

Section SimultaneousFacts.

Import strings.

Implicit Types (pieces : list Piece) (captures : gmap string string).

(** Over a format made of pieces the substitution loop does, in any order,
    what one simultaneous substitution does. *)
Lemma substitute_captures pieces captures (entries : list (string * string)) :
  entries ≡ₚ map_to_list captures →
  map_Forall (λ name value, wordy name ∧ plain value) captures →
  wellFormed pieces →
  substitute entries (render placeholder pieces) = render (resolved captures) pieces.
Proof.
  intros Hperm Hcaptures Hwf.
  assert (NoDup entries.*1) as Hnd.
  { rewrite Hperm. apply NoDup_fst_map_to_list. }
  rewrite (render_ext placeholder (resolved ∅)).
  2: { intros name _. unfold resolved. by rewrite lookup_empty. }
  rewrite substitute_pieces; [| done | | apply map_Forall_empty | done].
  - rewrite (right_id_L ∅ (∪)).
    rewrite (list_to_map_proper entries (map_to_list captures)) by done.
    by rewrite list_to_map_to_list.
  - apply Forall_forall. intros [name value] Hin.
    rewrite Hperm in Hin. apply elem_of_map_to_list in Hin.
    destruct (Hcaptures name value Hin) as [[_ ?] ?].
    split_and!; [apply lookup_empty | done..].
Qed.

Lemma render_plain (f : string → string) pieces :
  wellFormed pieces →
  Forall (λ name, plain (f name)) (placeholders pieces) →
  plain (render f pieces).
Proof.
  intros Hwf. induction Hwf as [|[text|name] pieces Hpiece _ IH];
    cbn [render placeholders]; intros Hf.
  - done.
  - apply plain_app. auto.
  - apply Forall_cons in Hf as [? ?]. apply plain_app. auto.
Qed.

Lemma render_Contains (f : string → string) pieces (name : string) :
  name ∈ placeholders pieces → Contains (render f pieces) (f name) = true.
Proof.
  intros Hin. apply Contains_spec.
  induction pieces as [|[text|other] pieces IH]; cbn [render placeholders] in *.
  - by apply elem_of_nil in Hin.
  - destruct (IH Hin) as (pre & post & ->).
    exists (text +:+ pre), post. by rewrite append_assoc.
  - apply elem_of_cons in Hin as [<-|Hin].
    + by exists "", (render f pieces).
    + destruct (IH Hin) as (pre & post & ->).
      exists (f other +:+ pre), post. by rewrite append_assoc.
Qed.

Lemma plain_not_unreplaced (s : string) : plain s → unreplaced s = false.
Proof.
  unfold plain, unreplaced. intros Hs.
  destruct (Contains s "${") eqn:Hc; [|done].
  change "${" with ("$" +:+ "{") in Hc.
  apply Contains_app_inv in Hc as [Hc _]. congruence.
Qed.

Lemma map_Forall_list_to_map (P : string → string → Prop) (l : list (string * string)) :
  Forall (λ '(name, value), P name value) l →
  map_Forall P (list_to_map l : gmap string string).
Proof.
  induction 1 as [|[name value] l HP _ IH]; cbn.
  - apply map_Forall_empty.
  - by apply map_Forall_insert_2.
Qed.

End SimultaneousFacts.

(** ** The placeholder of a group that takes no part *)

(** A failure that every arrangement of the entries yields is the
    failure whatever order the map is ranged over. *)
Lemma Transform_all_orders_fail `{RegexpEngine} (t : PathTransformer) (path : string)
    (entries : list (string * string)) (result : string) :
  map_to_list <$> captured t path = Some entries →
  forallb (λ l, bool_decide (substitute l (format t) = result))
          (permutations entries) = true →
  unreplaced result = true →
  ∀ ord : RangeOrder, Transform ord t path = Err (UnresolvedPlaceholder result).
Proof.
  intros Hc Hall Hleft ord. rewrite Transform_unfold.
  destruct (captured t path) as [captures|]; [|done].
  cbn in Hc. injection Hc as <-. cbn zeta.
  assert (substitute (ord (map_to_list captures)) (format t) = result) as ->.
  { rewrite forallb_forall in Hall.
    eapply bool_decide_eq_true, Hall, list_elem_of_In, permutations_Permutation.
    symmetry. apply range_perm. }
  by rewrite Hleft.
Qed.

(** C6 as stated fails in three ways.  In the pattern of [tRepeated] two
    groups bear the name [a]; the first takes no part in the match of
    [y], and [a] is bound to [y], the text of the second.  In [tJoined]
    the group [a] takes no part in the match of [y] and is bound to the
    empty string; the pass for [a] removes its placeholder from the
    format, which leaves the text of that placeholder again, and
    [Transform] fails with [UnresolvedPlaceholder] in every order.  And
    in [tCarried], on an input whose first part is the placeholder of
    [a], the pass for [a] comes first in the stored order, the pass for
    [v] then puts that placeholder in, and [Transform] fails likewise. *)
Lemma C6_counterexample :
  (NewPathTransformer (engine := fragment) "(?P<a>x)?(?P<a>y)" "${a}" = Ok tRepeated
   ∧ SubexpNames (pattern tRepeated) = [""; "a"; "a"]
   ∧ doExecute (pattern tRepeated) "y" = Some [Some (0, 1); None; Some (0, 1)]
   ∧ map_to_list <$> captured tRepeated "y" = Some [("a", "y")])
  ∧ (NewPathTransformer (engine := fragment) "(?P<a>x)|(?P<b>y)" "$${a}{a}" = Ok tJoined
     ∧ SubexpNames (pattern tJoined) = [""; "a"; "b"]
     ∧ doExecute (pattern tJoined) "y" = Some [Some (0, 1); None; Some (0, 1)]
     ∧ map_to_list <$> captured tJoined "y" = Some [("a", ""); ("b", "y")]
     ∧ ∀ ord : RangeOrder, Transform ord tJoined "y" = Err (UnresolvedPlaceholder "${a}"))
  ∧ (NewPathTransformer (engine := fragment) "(?P<v>[^-]*)-(?:(?P<a>x)|y)" "${v}${a}"
     = Ok tCarried
     ∧ SubexpNames (pattern tCarried) = [""; "v"; "a"]
     ∧ doExecute (pattern tCarried) "${a}-y" = Some [Some (0, 6); Some (0, 4); None]
     ∧ map_to_list <$> captured tCarried "${a}-y" = Some [("a", ""); ("v", "${a}")]
     ∧ Transform stored tCarried "${a}-y" = Err (UnresolvedPlaceholder "${a}")).
Proof.
  split; [|split].
  - split_and!; [reflexivity | reflexivity | vm_compute; reflexivity..].
  - split_and!; [reflexivity | reflexivity | vm_compute; reflexivity..|].
    apply (Transform_all_orders_fail tJoined "y" [("a", ""); ("b", "y")] "${a}");
      vm_compute; reflexivity.
  - split_and!; [reflexivity | reflexivity | vm_compute; reflexivity..].
Qed.

(** C6, as amended: when the pattern matches and the engine reports no
    span for the named group of index [i], and no later group bears its
    name, the map binds the name to the empty string.  When moreover the
    format is made of literal text without a dollar sign and of
    placeholders, and no captured text holds a dollar sign, the text that
    [Transform] ends with, in every order, is the format with the empty
    string for each placeholder of that name, the captured text for each
    placeholder of another captured name, and the placeholders of the
    names that are not captured as they are.  [Transform] returns it when
    every placeholder is that of a captured name; otherwise
    [UnresolvedPlaceholder] carries it. *)
Theorem C6_unmatched_group_is_empty `{RegexpEngine} (ord : RangeOrder)
    (t : PathTransformer) (path : string) (a : list span) (i : nat) (name : string) :
  doExecute (pattern t) path = Some a →
  SubexpNames (pattern t) !! i = Some name → i ≠ 0 → name ≠ "" →
  a !! i = Some None →
  (∀ j, i < j → SubexpNames (pattern t) !! j ≠ Some name) →
  ∃ captures, captured t path = Some captures ∧ captures !! name = Some "" ∧
    ∀ pieces : list Piece,
      format t = render placeholder pieces →
      wellFormed pieces →
      map_Forall (λ n v, wordy n ∧ plain v) captures →
      Transform ord t path
      = let result := render (λ n, if bool_decide (n = name) then ""
                                   else resolved captures n) pieces in
        if bool_decide (Forall (λ n, is_Some (captures !! n)) (placeholders pieces))
        then Ok result
        else Err (UnresolvedPlaceholder result).
Proof.
  intros Ha Hname Hi Hne Hspan Hlast.
  destruct (captured_matches t path) as [captures Hc]; [by rewrite Ha|].
  exists captures. split; [done|].
  assert (captures !! name = Some "") as Hempty.
  { unfold captured in Hc.
    destruct (FindStringSubmatch (pattern t) path) as [match_|] eqn:Hf; [|done].
    eapply (collect_lookup _ name i 0); eauto.
    cbn [Nat.add].
    rewrite (FindStringSubmatch_lookup _ _ a match_ i Ha Hf)
      by (by eapply lookup_lt_Some).
    by rewrite Hspan. }
  split; [done|].
  intros pieces Hformat Hwf Hcaptures.
  rewrite Transform_unfold, Hc, Hformat. cbn zeta.
  rewrite (substitute_captures pieces captures); [| apply range_perm | done..].
  set (value := λ n, if bool_decide (n = name) then "" else resolved captures n).
  rewrite (render_ext (resolved captures) value).
  2: { intros n _. unfold value, resolved.
       case_bool_decide as Hn; [subst n; by rewrite Hempty | done]. }
  case_bool_decide as Hall.
  - rewrite Forall_forall in Hall.
    rewrite plain_not_unreplaced; [done|].
    apply render_plain; [done|]. apply Forall_forall. intros n Hin.
    unfold value, resolved. case_bool_decide as Hn; [done|].
    destruct (Hall n Hin) as [v Hv]. rewrite Hv. by apply (Hcaptures n v).
  - apply not_Forall_Exists in Hall; [|apply _].
    apply Exists_exists in Hall as (other & Hin & Hnone).
    apply eq_None_not_Some in Hnone.
    rewrite (unreplaced_placeholder _ other); [done|].
    pose proof (render_Contains value pieces other Hin) as Hhere.
    unfold value at 2 in Hhere. unfold resolved in Hhere.
    rewrite Hnone in Hhere. rewrite bool_decide_eq_false_2 in Hhere; [done|].
    intros ->. congruence.
Qed.

Lemma C6_witness :
  doExecute (pattern tEither) "y" = Some [Some (0, 1); None; Some (0, 1)] ∧
  SubexpNames (pattern tEither) !! 1 = Some "a" ∧ 1 ≠ 0 ∧ "a" ≠ "" ∧
  [Some (0, 1); None; Some (0, 1)] !! 1 = Some (None : span) ∧
  (∀ j, 1 < j → SubexpNames (pattern tEither) !! j ≠ Some "a") ∧
  ∃ captures, captured tEither "y" = Some captures ∧ captures !! "a" = Some "" ∧
    format tEither = render placeholder eitherPieces ∧
    wellFormed eitherPieces ∧
    map_Forall (λ n v, wordy n ∧ plain v) captures ∧
    Forall (λ n, is_Some (captures !! n)) (placeholders eitherPieces) ∧
    Transform stored tEither "y"
    = let result := render (λ n, if bool_decide (n = "a") then ""
                                 else resolved captures n) eitherPieces in
      if bool_decide (Forall (λ n, is_Some (captures !! n)) (placeholders eitherPieces))
      then Ok result
      else Err (UnresolvedPlaceholder result).
Proof.
  assert (∀ j, 1 < j → SubexpNames (pattern tEither) !! j ≠ Some "a") as Hlast.
  { intros [|[|[|j]]] Hj; [lia | lia | done | done]. }
  split_and!; [vm_compute; reflexivity | reflexivity | done | done | reflexivity | done |].
  destruct (C6_unmatched_group_is_empty (H := fragment) stored tEither "y"
              [Some (0, 1); None; Some (0, 1)] 1 "a")
    as (captures & Hc & Hempty & Hout);
    [vm_compute; reflexivity | reflexivity | done | done | reflexivity | done |].
  assert (captured tEither "y" = Some (list_to_map [("a", ""); ("b", "y")])) as Hc'
    by (vm_compute; reflexivity).
  assert (captures = list_to_map [("a", ""); ("b", "y")]) as Hmap by congruence.
  assert (wellFormed eitherPieces) as Hwf
    by (repeat (constructor; [by vm_compute|]); constructor).
  assert (map_Forall (λ n v, wordy n ∧ plain v) captures) as Hcaptures.
  { rewrite Hmap. apply map_Forall_list_to_map.
    repeat (constructor; [by vm_compute|]). constructor. }
  assert (Forall (λ n, is_Some (captures !! n)) (placeholders eitherPieces)) as Hall.
  { rewrite Hmap. repeat (constructor; [by eexists|]). constructor. }
  exists captures. split_and!; [done | done | reflexivity | done | done | done |].
  by apply Hout.
Defined.

(** With the pattern [(?P<a>x)|(?P<b>y)] and the input [y] the text comes
    out without the group that took no part. *)
Example unmatched_group_output :
  NewPathTransformer (engine := fragment) "(?P<a>x)|(?P<b>y)" "${a}${b}" = Ok tEither
  ∧ ∀ ord : RangeOrder, Transform ord tEither "y" = Ok "y".
Proof.
  split; [reflexivity|]. eapply Transform_all_orders; vm_compute; reflexivity.
Qed.

(** ** What the substitution loop computes on ordinary formats *)

(** X1: when the format is made of literal text without a dollar sign and
    of placeholders that all name captured groups, and no captured text
    holds a dollar sign, [Transform] succeeds whatever the order in which
    the map is ranged over, and returns the format with every placeholder
    replaced by the text of its group. *)
Theorem X1_simultaneous_substitution `{RegexpEngine} (ord : RangeOrder)
    (t : PathTransformer) (path : string) (pieces : list Piece)
    (captures : gmap string string) :
  format t = render placeholder pieces →
  wellFormed pieces →
  captured t path = Some captures →
  map_Forall (λ name value, wordy name ∧ plain value) captures →
  Forall (λ name, is_Some (captures !! name)) (placeholders pieces) →
  Transform ord t path = Ok (render (λ name, default "" (captures !! name)) pieces).
Proof.
  intros Hformat Hwf Hc Hcaptures Hall.
  rewrite Transform_unfold, Hc, Hformat. cbn zeta.
  rewrite (substitute_captures pieces captures); [| apply range_perm | done..].
  rewrite (render_ext (resolved captures) (λ name, default "" (captures !! name))).
  2: { intros name Hin. rewrite Forall_forall in Hall.
       destruct (Hall name Hin) as [value Hv]. unfold resolved. by rewrite Hv. }
  rewrite plain_not_unreplaced; [done|].
  apply render_plain; [done|]. apply Forall_forall. intros name Hin.
  rewrite Forall_forall in Hall. destruct (Hall name Hin) as [value Hv].
  rewrite Hv. by apply (Hcaptures name value).
Qed.

Lemma X1_witness :
  format tDate = render placeholder datePieces ∧
  wellFormed datePieces ∧
  captured tDate "apr-10-2025-17-27-28-AI_TEAM_OFFICE_ROOM-2/audio_transcript.TRANSCRIPT"
    = Some dateCaptures ∧
  map_Forall (λ name value, wordy name ∧ plain value) dateCaptures ∧
  Forall (λ name, is_Some (dateCaptures !! name)) (placeholders datePieces) ∧
  Transform backwards tDate
    "apr-10-2025-17-27-28-AI_TEAM_OFFICE_ROOM-2/audio_transcript.TRANSCRIPT"
  = Ok (render (λ name, default "" (dateCaptures !! name)) datePieces).
Proof.
  assert (wellFormed datePieces) as Hwf
    by (repeat (constructor; [by vm_compute|]); constructor).
  assert (map_Forall (λ name value, wordy name ∧ plain value) dateCaptures) as Hcaptures.
  { apply map_Forall_list_to_map. repeat (constructor; [by vm_compute|]). constructor. }
  assert (Forall (λ name, is_Some (dateCaptures !! name)) (placeholders datePieces)) as Hall
    by (repeat (constructor; [by eexists|]); constructor).
  split_and!; [reflexivity | done | vm_compute; reflexivity | done | done |].
  apply (X1_simultaneous_substitution (H := fragment) backwards tDate _ datePieces dateCaptures);
    [reflexivity | done | vm_compute; reflexivity | done | done].
Defined.

(** X2: when such a format also holds the placeholder of a name that no
    captured group bears, [Transform] fails with [UnresolvedPlaceholder]
    on every input that the pattern matches, whatever the order; the
    error carries the format with the other placeholders replaced. *)
Theorem X2_undeclared_name_is_unresolved `{RegexpEngine} (ord : RangeOrder)
    (t : PathTransformer) (path name : string) (pieces : list Piece)
    (captures : gmap string string) :
  format t = render placeholder pieces →
  wellFormed pieces →
  captured t path = Some captures →
  map_Forall (λ name value, wordy name ∧ plain value) captures →
  name ∈ placeholders pieces → captures !! name = None →
  Transform ord t path = Err (UnresolvedPlaceholder (render (resolved captures) pieces)).
Proof.
  intros Hformat Hwf Hc Hcaptures Hin Hnone.
  rewrite Transform_unfold, Hc, Hformat. cbn zeta.
  rewrite (substitute_captures pieces captures); [| apply range_perm | done..].
  rewrite (unreplaced_placeholder _ name); [done|].
  pose proof (render_Contains (resolved captures) pieces name Hin) as Hhere.
  unfold resolved at 2 in Hhere. by rewrite Hnone in Hhere.
Qed.

Lemma X2_witness :
  format tDateType = render placeholder dateTypePieces ∧
  wellFormed dateTypePieces ∧
  captured tDateType "apr-10-2025-17-27-28-AI_TEAM_OFFICE_ROOM-2/audio_transcript.TRANSCRIPT"
    = Some dateCaptures ∧
  map_Forall (λ name value, wordy name ∧ plain value) dateCaptures ∧
  "type" ∈ placeholders dateTypePieces ∧ dateCaptures !! "type" = None ∧
  Transform stored tDateType
    "apr-10-2025-17-27-28-AI_TEAM_OFFICE_ROOM-2/audio_transcript.TRANSCRIPT"
  = Err (UnresolvedPlaceholder (render (resolved dateCaptures) dateTypePieces)).
Proof.
  assert (wellFormed dateTypePieces) as Hwf
    by (repeat (constructor; [by vm_compute|]); constructor).
  assert (map_Forall (λ name value, wordy name ∧ plain value) dateCaptures) as Hcaptures.
  { apply map_Forall_list_to_map. repeat (constructor; [by vm_compute|]). constructor. }
  assert ("type" ∈ placeholders dateTypePieces) as Hin by (right; left).
  split_and!; [reflexivity | done | vm_compute; reflexivity | done | done
              | vm_compute; reflexivity |].
  apply (X2_undeclared_name_is_unresolved (H := fragment) stored tDateType _ "type"
           dateTypePieces dateCaptures);
    [reflexivity | done | vm_compute; reflexivity | done | done | vm_compute; reflexivity].
Defined.

(** ** What the two functions never do *)

(** X3: neither function panics: [Transform] never reads [match] out of
    range.  [Transform] fails only with [NoMatch], for its own input, or
    with [UnresolvedPlaceholder]; [NewPathTransformer] fails only with
    [InvalidArguments], with [InvalidPattern] and the message of the
    engine, or with [TemplateUnused]. *)
Theorem X3_no_panic_and_error_kinds `{RegexpEngine} (ord : RangeOrder)
    (t : PathTransformer) (path p f : string) :
  Transform ord t path ≠ Panic ∧
  (∀ e, Transform ord t path = Err e →
        e = NoMatch path ∨ ∃ r, e = UnresolvedPlaceholder r) ∧
  NewPathTransformer p f ≠ Panic ∧
  (∀ e, NewPathTransformer p f = Err e →
        e = InvalidArguments ∨ e = TemplateUnused
        ∨ ∃ diagnostic, Compile p = inr diagnostic ∧ e = InvalidPattern diagnostic).
Proof.
  split_and!.
  - apply Transform_no_panic.
  - intros e. rewrite Transform_unfold. destruct (captured t path); cbn zeta.
    + destruct (unreplaced _); [|done]. intros [= <-]. right. by eexists.
    + intros [= <-]. by left.
  - unfold NewPathTransformer.
    destruct (bool_decide (p = "") || bool_decide (f = "")); [done|].
    destruct (Compile p); [|done]. by destruct (negb _).
  - intros e. unfold NewPathTransformer.
    destruct (bool_decide (p = "") || bool_decide (f = "")).
    { intros [= <-]. by left. }
    destruct (Compile p) as [re|diagnostic].
    + destruct (negb _); [|done]. intros [= <-]. right. by left.
    + intros [= <-]. right. right. by eexists.
Qed.

(** X4: a transformer that [NewPathTransformer] returns was built from a
    non-empty pattern and a non-empty format; it holds the expression
    that the engine compiled from the pattern and the format as given;
    and its format contains the placeholder of one of its named
    groups. *)
Theorem X4_compiled_transformer_invariant `{RegexpEngine} (p f : string)
    (t : PathTransformer) :
  NewPathTransformer p f = Ok t →
  p ≠ "" ∧ f ≠ "" ∧ Compile p = inl (pattern t) ∧ format t = f ∧
  ∃ g, g ∈ SubexpNames (pattern t) ∧ g ≠ ""
       ∧ strings.Contains (format t) (placeholder g) = true.
Proof.
  unfold NewPathTransformer.
  destruct (bool_decide (p = "") || bool_decide (f = "")) eqn:Hempty; [done|].
  apply orb_false_iff in Hempty as [Hp%bool_decide_eq_false Hf%bool_decide_eq_false].
  destruct (Compile p) as [re|]; [|done].
  destruct (hasNamedGroup (SubexpNames re) f) eqn:Hused; [|done].
  cbn. intros [= <-]. cbn. split_and!; try done. by apply hasNamedGroup_spec.
Qed.

Lemma X4_witness :
  NewPathTransformer (engine := fragment) "(?P<a>x)|(?P<b>y)" "${a}${b}" = Ok tEither ∧
  "(?P<a>x)|(?P<b>y)" ≠ "" ∧ "${a}${b}" ≠ "" ∧
  Compile "(?P<a>x)|(?P<b>y)" = inl (pattern tEither) ∧ format tEither = "${a}${b}" ∧
  ∃ g, g ∈ SubexpNames (pattern tEither) ∧ g ≠ ""
       ∧ strings.Contains (format tEither) (placeholder g) = true.
Proof.
  split; [reflexivity|].
  apply (X4_compiled_transformer_invariant (H := fragment)). reflexivity.
Defined.

(** ** The map of captures *)

Section CapturesFacts.

(** Where an entry of the map comes from: the last group that bears the
    name, or the map the loop started with. *)
Lemma collect_lookup_inv (names : list string) (name value : string) :
  ∀ i (match_ : list string) (captures captures' : gmap string string),
  collect i names match_ captures = Some captures' →
  captures' !! name = Some value →
  (∃ k, names !! k = Some name ∧ (∀ j, k < j → names !! j ≠ Some name)
        ∧ i + k ≠ 0 ∧ name ≠ "" ∧ match_ !! (i + k) = Some value)
  ∨ (captures !! name = Some value
     ∧ ∀ k, names !! k = Some name → i + k = 0 ∨ name = "").
Proof.
  induction names as [|name' rest IH]; intros i match_ captures captures' Hc Hv.
  { right. cbn in Hc. by simplify_eq. }
  cbn [collect] in Hc.
  destruct (bool_decide (i ≠ 0) && bool_decide (name' ≠ "")) eqn:Hguard.
  - apply andb_true_iff in Hguard as [Hi%bool_decide_eq_true Hn%bool_decide_eq_true].
    destruct (match_ !! i) as [value'|] eqn:Hmi; [|done].
    destruct (IH _ _ _ _ Hc Hv) as [(k & Hk & Hlast & _ & Hne & Hm) | [Hold Hnone]].
    + left. exists (S k). split_and!; [done | | lia | done |].
      * intros [|j] Hj; [lia|]. apply Hlast. lia.
      * by replace (i + S k) with (S i + k) by lia.
    + destruct (decide (name' = name)) as [->|Hneq].
      * rewrite lookup_insert_eq in Hold. simplify_eq. left. exists 0.
        split_and!; [done | | lia | done | by rewrite Nat.add_0_r].
        intros [|j] Hj; [lia|]. cbn. intros Hj'.
        destruct (Hnone j Hj') as [?|?]; [lia | done].
      * rewrite lookup_insert_ne in Hold by done. right. split; [done|].
        intros [|k] Hk; [cbn in Hk; congruence|].
        destruct (Hnone k Hk) as [?|?]; [lia | by right].
  - destruct (IH _ _ _ _ Hc Hv) as [(k & Hk & Hlast & _ & Hne & Hm) | [Hold Hnone]].
    + left. exists (S k). split_and!; [done | | lia | done |].
      * intros [|j] Hj; [lia|]. apply Hlast. lia.
      * by replace (i + S k) with (S i + k) by lia.
    + right. split; [done|]. intros [|k] Hk.
      * cbn in Hk. simplify_eq. apply andb_false_iff in Hguard as [Hg|Hg].
        -- left. apply bool_decide_eq_false in Hg. destruct i; [lia | by destruct Hg].
        -- right. apply bool_decide_eq_false in Hg.
           by destruct (decide (name = "")) as [?|?%Hg].
      * destruct (Hnone k Hk) as [?|?]; [lia | by right].
Qed.

End CapturesFacts.

(** X5: when the pattern matches, the map of captures holds exactly the
    non-empty names of the groups of index one and more (never the whole
    match, never an unnamed group), each bound to the text that
    [FindStringSubmatch] reports for the last group of that name. *)
Theorem X5_captures_are_the_named_groups `{RegexpEngine} (t : PathTransformer)
    (path : string) (a : list span) :
  doExecute (pattern t) path = Some a →
  ∃ captures, captured t path = Some captures ∧
    ∀ name value, captures !! name = Some value ↔
      name ≠ "" ∧ ∃ i, i ≠ 0 ∧ SubexpNames (pattern t) !! i = Some name
                       ∧ (∀ j, i < j → SubexpNames (pattern t) !! j ≠ Some name)
                       ∧ value = groupText a path i.
Proof.
  intros Ha. destruct (captured_matches t path) as [captures Hc]; [by rewrite Ha|].
  exists captures. split; [done|]. unfold captured in Hc.
  destruct (FindStringSubmatch (pattern t) path) as [match_|] eqn:Hf; [|done].
  intros name value. split.
  - intros Hv.
    destruct (collect_lookup_inv _ _ _ _ _ _ _ Hc Hv)
      as [(k & Hk & Hlast & Hk0 & Hne & Hm) | [Hold _]]; [|by rewrite lookup_empty in Hold].
    split; [done|]. exists k. split_and!; [lia | done | done |].
    cbn [Nat.add] in Hm.
    rewrite (FindStringSubmatch_lookup _ _ a match_ k Ha Hf) in Hm
      by (by eapply lookup_lt_Some).
    by injection Hm as <-.
  - intros (Hne & i & Hi & Hname & Hlast & ->).
    eapply (collect_lookup _ name i 0); eauto.
    cbn [Nat.add]. by rewrite (FindStringSubmatch_lookup _ _ a match_ i Ha Hf)
      by (by eapply lookup_lt_Some).
Qed.

Lemma X5_witness :
  doExecute (pattern tEither) "y" = Some [Some (0, 1); None; Some (0, 1)] ∧
  ∃ captures, captured tEither "y" = Some captures ∧
    ∀ name value, captures !! name = Some value ↔
      name ≠ "" ∧ ∃ i, i ≠ 0 ∧ SubexpNames (pattern tEither) !! i = Some name
                       ∧ (∀ j, i < j → SubexpNames (pattern tEither) !! j ≠ Some name)
                       ∧ value = groupText [Some (0, 1); None; Some (0, 1)] "y" i.
Proof.
  split; [vm_compute; reflexivity|].
  apply (X5_captures_are_the_named_groups (H := fragment) tEither "y").
  vm_compute; reflexivity.
Defined.

(** * Properties of the package [drive] *)

(** ** [cleanPath] *)

Section CleanPathFacts.

Import strings.

Lemma replaceLimited_done (a s old new : string) :
  replaceLimited 0 (String.length a) (a +:+ s) old new = s.
Proof.
  induction a as [|c a IH]; [by destruct s|].
  rewrite append_cons. cbn [String.length replaceLimited]. done.
Qed.

(** One replacement: the text up to the first instance of [old] is kept,
    the instance becomes [new], and all that follows is kept too. *)
Lemma replaceLimited_first (c : ascii) (old' new : string) : ∀ s : string,
  Contains s (String c old') = true →
  ∃ pre post,
    s = pre +:+ String c old' +:+ post ∧
    (∀ pre' post', s = pre' +:+ String c old' +:+ post' →
                   String.length pre ≤ String.length pre') ∧
    replaceLimited 1 0 s (String c old') new = pre +:+ new +:+ post.
Proof.
  induction s as [|d s IH]; intros Hs.
  { cbn in Hs. done. }
  cbn [replaceLimited]. destruct (HasPrefix (String d s) (String c old')) eqn:Hp.
  - apply HasPrefix_spec in Hp as [post Hpost]. exists "", post.
    split_and!; [done | intros; cbn; lia |].
    rewrite append_cons in Hpost. injection Hpost as -> ->.
    replace (String.length (String c old') - 1) with (String.length old')
      by (cbn [String.length]; lia).
    by rewrite replaceLimited_done.
  - cbn [Contains] in Hs. rewrite Hp in Hs. cbn [orb] in Hs.
    destruct (IH Hs) as (pre & post & -> & Hfirst & ->).
    exists (String d pre), post. split_and!; [done | | done].
    intros [|d' pre'] post' Heq.
    + exfalso. rewrite append_nil in Heq.
      assert (HasPrefix (String d (pre +:+ String c old' +:+ post)) (String c old') = true)
        as Hp' by (apply HasPrefix_spec; by exists post').
      congruence.
    + rewrite !append_cons in Heq. injection Heq as -> Heq.
      cbn [String.length]. apply le_n_S. by eapply Hfirst.
Qed.

End CleanPathFacts.

(** X6: a path without [Zoom Recordings/Drive/zoom-recordings/] is left
    as it is.  In a path with it, the first instance, and only that one,
    loses its [Drive/zoom-recordings/]: what comes before and all that
    comes after the instance are kept, also when the rest holds the same
    text again. *)
Theorem X6_cleanPath_first_instance (path : string) :
  (strings.Contains path "Zoom Recordings/Drive/zoom-recordings/" = false
   ∧ cleanPath path = path)
  ∨ ∃ pre post,
      path = pre +:+ "Zoom Recordings/Drive/zoom-recordings/" +:+ post ∧
      (∀ pre' post', path = pre' +:+ "Zoom Recordings/Drive/zoom-recordings/" +:+ post' →
                     String.length pre ≤ String.length pre') ∧
      cleanPath path = pre +:+ "Zoom Recordings/" +:+ post.
Proof.
  unfold cleanPath.
  destruct (strings.Contains path "Zoom Recordings/Drive/zoom-recordings/") eqn:Hc.
  - right. by apply (replaceLimited_first "Z" "oom Recordings/Drive/zoom-recordings/").
  - by left.
Qed.

(** The rest is kept even when it holds the same text again. *)
Example cleanPath_only_once :
  cleanPath "Zoom Recordings/Drive/zoom-recordings/Drive/zoom-recordings/a.txt"
  = "Zoom Recordings/Drive/zoom-recordings/a.txt".
Proof. vm_compute; reflexivity. Qed.

(** ** The calls a function makes *)

Section CallFacts.

Context `{engine : RegexpEngine} `{env : Environment}.

Lemma madeOnly_refl (allowed : Call → bool) (s : State) : madeOnly allowed s s.
Proof. exists []. by rewrite app_nil_r. Qed.

Lemma madeOnly_trans (allowed : Call → bool) (s1 s2 s3 : State) :
  madeOnly allowed s1 s2 → madeOnly allowed s2 s3 → madeOnly allowed s1 s3.
Proof.
  intros (new1 & H1 & Hall1) (new2 & H2 & Hall2). exists (new1 ++ new2). split.
  - by rewrite H2, H1, app_assoc.
  - by apply Forall_app.
Qed.

Lemma madeOnly_record (allowed : Call → bool) (c : Call) (w : World) (s : State) :
  allowed c = true → madeOnly allowed s (record c w s).
Proof. intros Hc. exists [c]. split; [done|]. by constructor. Qed.

Lemma filesList_reads (c : drivev3.FilesListCall) (s : State) :
  madeOnly readsDrive s (filesList c s).2.
Proof. unfold filesList. destruct (FilesListDo c (world s)). by apply madeOnly_record. Qed.

Lemma filesGet_reads (c : drivev3.FilesGetCall) (s : State) :
  madeOnly readsDrive s (filesGet c s).2.
Proof. unfold filesGet. destruct (FilesGetDo c (world s)). by apply madeOnly_record. Qed.

Lemma getFullPath_reads (fuel : nat) : ∀ (fileID : string) folderNames (s : State),
  madeOnly readsDrive s (getFullPath fuel fileID folderNames s).2.
Proof.
  induction fuel as [|fuel IH]; intros fileID folderNames s; cbn [getFullPath].
  { apply madeOnly_refl. }
  pose proof (filesGet_reads
                {| drivev3.FileId := fileID; drivev3.GetFields := "id, name, parents";
                   drivev3.GetSupportsAllDrives := true |} s) as Hget.
  destruct (filesGet _ s) as [[file|err] s1]; cbn [snd] in *; [|done].
  destruct (drivev3.Parents file) as [|parent ?]; [done|].
  specialize (IH parent folderNames s1).
  destruct (getFullPath fuel parent folderNames s1) as [[| | |] s2]; cbn [snd] in *;
    by eapply madeOnly_trans.
Qed.

Lemma withFullPaths_reads (fuel : nat) (found : list drivev3.File) :
  ∀ folderNames (s : State),
  madeOnly readsDrive s (withFullPaths fuel found folderNames s).2.
Proof.
  induction found as [|f rest IH]; intros folderNames s; cbn [withFullPaths].
  { apply madeOnly_refl. }
  pose proof (getFullPath_reads fuel (drivev3.Id f) folderNames s) as Hpath.
  destruct (getFullPath fuel (drivev3.Id f) folderNames s) as [[fullPath| | |] s1];
    cbn [snd] in *; try done.
  - specialize (IH folderNames s1).
    destruct (withFullPaths fuel rest folderNames s1) as [[| | |] s2]; cbn [snd] in *;
      by eapply madeOnly_trans.
  - eapply madeOnly_trans; [done | apply IH].
Qed.

Lemma listedItems_reads (pathFuel : nat) (currentDepth : Z)
    (rFiles : list drivev3.File) (s : State) :
  madeOnly readsDrive s (listedItems pathFuel currentDepth rFiles s).2.
Proof.
  unfold listedItems.
  destruct (bool_decide (len rFiles = 0%Z) && bool_decide (currentDepth = 1%Z));
    [|apply madeOnly_refl].
  pose proof (filesList_reads
                (listCall "fullText contains 'TRANSCRIPT' and name contains '.TRANSCRIPT'") s)
    as Hlist.
  destruct (filesList _ s) as [[[|f found]|err] s1]; cbn [snd] in *; try done.
  eapply madeOnly_trans; [done | apply withFullPaths_reads].
Qed.

End CallFacts.

(** ** What the search collects *)

Section SearchFacts.

Context `{engine : RegexpEngine} `{env : Environment}.

(** What a step of the search does to the slice and to the calls: it
    only appends entries of matching files, it does not grow the slice
    beyond a positive [maxResults], and it only reads from the service. *)
Let collects (pattern : Regexp) (maxResults : Z) (files : list FileInfo) (s : State)
    (out : Result unit * list FileInfo * State) : Prop :=
  (∃ added, out.1.2 = files ++ added ∧ Forall (matched pattern) added) ∧
  ((0 < maxResults)%Z → (len out.1.2 ≤ maxResults `max` len files)%Z) ∧
  madeOnly readsDrive s out.2.

Lemma collects_refl pattern maxResults files s (r : Result unit) :
  collects pattern maxResults files s (r, files, s).
Proof.
  split_and!; cbn.
  - exists []. by rewrite app_nil_r.
  - lia.
  - apply madeOnly_refl.
Qed.

Lemma collects_trans pattern maxResults files s files1 s1 (r : Result unit) out :
  collects pattern maxResults files s (r, files1, s1) →
  collects pattern maxResults files1 s1 out →
  collects pattern maxResults files s out.
Proof.
  intros ((added1 & H1 & Hall1) & Hbound1 & Hcalls1)
         ((added2 & H2 & Hall2) & Hbound2 & Hcalls2). cbn in *. split_and!.
  - exists (added1 ++ added2). split; [by rewrite H2, H1, app_assoc | by apply Forall_app].
  - intros Hpos. specialize (Hbound1 Hpos). specialize (Hbound2 Hpos). lia.
  - by eapply madeOnly_trans.
Qed.

Lemma processItems_collects recurse (parentPath : string) pattern (maxResults : Z) :
  (∀ id path files s, collects pattern maxResults files s (recurse id path files s)) →
  ∀ items files s,
    collects pattern maxResults files s
      (processItems recurse parentPath pattern maxResults items files s).
Proof.
  intros Hrec. induction items as [|f rest IH]; intros files s; cbn [processItems].
  { apply collects_refl. }
  destruct (bool_decide (0 < maxResults)%Z && bool_decide (maxResults ≤ len files)%Z)
    eqn:Hfull; [apply collects_refl|].
  destruct (drivev3.Trashed f); [apply IH|].
  destruct (bool_decide (drivev3.MimeType f = folderMimeType)) eqn:Hfolder.
  - specialize (Hrec (drivev3.Id f)
                  (cleanPath (Join [parentPath; drivev3.Name f])) files s).
    destruct (recurse _ _ files s) as [[[[]| | |] files'] s']; try done.
    eapply collects_trans; [exact Hrec | apply IH].
  - destruct (MatchString pattern (drivev3.Name f)) eqn:Hmatch; [|apply IH].
    eapply (collects_trans _ _ _ _ _ s (Return ())); [|apply IH].
    apply bool_decide_eq_false in Hfolder. split_and!; cbn.
    + eexists. split; [done|]. by repeat constructor.
    + intros Hpos. unfold len in *. rewrite length_app. cbn [length].
      apply andb_false_iff in Hfull as [H0|H1].
      * apply bool_decide_eq_false in H0. lia.
      * apply bool_decide_eq_false in H1. lia.
    + apply madeOnly_refl.
Qed.

Lemma listFilesRecursive_collects (pathFuel : nat) pattern (maxDepth maxResults : Z) :
  ∀ (fuel : nat) (folderID parentPath : string) (currentDepth : Z) files s,
    collects pattern maxResults files s
      (listFilesRecursive fuel pathFuel folderID parentPath pattern maxDepth
         currentDepth maxResults files s).
Proof.
  induction fuel as [|fuel IH]; intros folderID parentPath currentDepth files s;
    cbn [listFilesRecursive].
  { apply collects_refl. }
  destruct (bool_decide (maxDepth ≠ -1)%Z && bool_decide (maxDepth < currentDepth)%Z);
    [apply collects_refl|].
  destruct (bool_decide (0 < maxResults)%Z && bool_decide (maxResults ≤ len files)%Z);
    [apply collects_refl|].
  destruct (RepeatPanics "  " currentDepth); [apply collects_refl|].
  pose proof (filesList_reads (listCall ("'" +:+ folderID +:+ "' in parents")) s) as Hlist.
  destruct (filesList _ s) as [[rFiles|err] s1]; cbn [snd] in Hlist.
  2: { split_and!; cbn; [exists []; by rewrite app_nil_r | lia | done]. }
  pose proof (listedItems_reads pathFuel currentDepth rFiles s1) as Hitems.
  assert (∀ r : Result unit, collects pattern maxResults files s (r, files, (listedItems pathFuel currentDepth rFiles s1).2))
    as Hhere.
  { intros r. split_and!; cbn; [exists []; by rewrite app_nil_r | lia |].
    by eapply madeOnly_trans. }
  destruct (listedItems pathFuel currentDepth rFiles s1) as [[items| | |] s2];
    cbn [snd] in *; try apply Hhere.
  eapply collects_trans; [apply (Hhere (Return ()))|].
  apply processItems_collects. intros id path files' s'. apply IH.
Qed.

End SearchFacts.

(** X7: whatever the service answers and however the call ends,
    [listFilesRecursive] only appends to the slice it is given: the
    entries that were there stay in place, and every entry appended is
    for a file whose name the pattern matches and that is not a
    folder. *)
Theorem X7_search_only_appends_matching_files `{RegexpEngine} `{Environment}
    (fuel pathFuel : nat) (folderID parentPath : string) (pattern : Regexp)
    (maxDepth currentDepth maxResults : Z) (files : list FileInfo) (s : State) :
  ∃ added,
    (listFilesRecursive fuel pathFuel folderID parentPath pattern maxDepth currentDepth
       maxResults files s).1.2 = files ++ added
    ∧ Forall (matched pattern) added.
Proof. apply listFilesRecursive_collects. Qed.

(** X8: with a positive [maxResults], [listFilesRecursive] never grows
    the slice beyond [maxResults] entries: a slice that is shorter ends
    with at most [maxResults] entries, a longer one is left as it is. *)
Theorem X8_search_stops_at_maxResults `{RegexpEngine} `{Environment}
    (fuel pathFuel : nat) (folderID parentPath : string) (pattern : Regexp)
    (maxDepth currentDepth maxResults : Z) (files : list FileInfo) (s : State) :
  (0 < maxResults)%Z →
  (len (listFilesRecursive fuel pathFuel folderID parentPath pattern maxDepth currentDepth
          maxResults files s).1.2 ≤ maxResults `max` len files)%Z.
Proof. apply listFilesRecursive_collects. Qed.

Lemma X8_witness :
  (0 < 1)%Z ∧
  (len (listFilesRecursive (engine := fragment) (env := twoTranscripts)
          3 3 "root" "" reTranscript (-1) 0 1 [] (start (H := twoTranscripts) ())).1.2
   ≤ 1 `max` len (@nil FileInfo))%Z.
Proof.
  split; [done|].
  apply (X8_search_stops_at_maxResults (H := fragment) (H0 := twoTranscripts)).
  done.
Defined.

(** X9: [listFilesRecursive] only reads from the service: every call it
    makes is a [Files.List] or a [Files.Get]. *)
Theorem X9_search_only_reads `{RegexpEngine} `{Environment}
    (fuel pathFuel : nat) (folderID parentPath : string) (pattern : Regexp)
    (maxDepth currentDepth maxResults : Z) (files : list FileInfo) (s : State) :
  madeOnly readsDrive s
    (listFilesRecursive fuel pathFuel folderID parentPath pattern maxDepth currentDepth
       maxResults files s).2.
Proof. apply listFilesRecursive_collects. Qed.

(** ** A depth limit ends the search *)

Section DepthFacts.

Context `{engine : RegexpEngine} `{env : Environment}.

Lemma wrapInt_small (z : Z) : (- 2 ^ 63 ≤ z ≤ maxInt)%Z → wrapInt z = z.
Proof. unfold wrapInt, maxInt. intros Hz. rewrite Z.mod_small; lia. Qed.

Lemma withFullPaths_ends (pathFuel : nat) :
  (∀ id names s, (getFullPath pathFuel id names s).1 ≠ Unfinished) →
  ∀ found names s, (withFullPaths pathFuel found names s).1 ≠ Unfinished.
Proof.
  intros Hpath. induction found as [|f rest IH]; intros names s; cbn [withFullPaths].
  { done. }
  specialize (Hpath (drivev3.Id f) names s).
  destruct (getFullPath pathFuel (drivev3.Id f) names s) as [[fullPath| | |] s1];
    cbn [fst] in *; [|apply IH|done|done].
  specialize (IH names s1).
  by destruct (withFullPaths pathFuel rest names s1) as [[| | |] s2].
Qed.

Lemma listedItems_ends (pathFuel : nat) (currentDepth : Z) rFiles s :
  (∀ id names s, (getFullPath pathFuel id names s).1 ≠ Unfinished) →
  (listedItems pathFuel currentDepth rFiles s).1 ≠ Unfinished.
Proof.
  intros Hpath. unfold listedItems.
  destruct (bool_decide (len rFiles = 0%Z) && bool_decide (currentDepth = 1%Z)); [|done].
  destruct (filesList _ s) as [[[|f found]|err] s1]; try done.
  by apply withFullPaths_ends.
Qed.

Lemma processItems_ends recurse (parentPath : string) pattern (maxResults : Z) :
  (∀ id path files s, (recurse id path files s).1.1 ≠ Unfinished) →
  ∀ items files s,
    (processItems recurse parentPath pattern maxResults items files s).1.1 ≠ Unfinished.
Proof.
  intros Hrec. induction items as [|f rest IH]; intros files s; cbn [processItems].
  { done. }
  destruct (bool_decide (0 < maxResults)%Z && bool_decide (maxResults ≤ len files)%Z);
    [done|].
  destruct (drivev3.Trashed f); [apply IH|].
  destruct (bool_decide (drivev3.MimeType f = folderMimeType)).
  - specialize (Hrec (drivev3.Id f)
                  (cleanPath (Join [parentPath; drivev3.Name f])) files s).
    destruct (recurse _ _ files s) as [[[[]| | |] files'] s'];
      [apply IH|done|done|done].
  - destruct (MatchString pattern (drivev3.Name f)); apply IH.
Qed.

Lemma listFilesRecursive_ends (pathFuel : nat) pattern (maxDepth maxResults : Z) :
  (∀ id names s, (getFullPath pathFuel id names s).1 ≠ Unfinished) →
  (maxDepth ≠ -1)%Z → (maxDepth < maxInt)%Z →
  ∀ (fuel : nat) (folderID parentPath : string) (currentDepth : Z) files s,
    (- 2 ^ 63 ≤ currentDepth)%Z →
    0 < fuel → (maxDepth - currentDepth + 1 < Z.of_nat fuel)%Z →
    (listFilesRecursive fuel pathFuel folderID parentPath pattern maxDepth
       currentDepth maxResults files s).1.1 ≠ Unfinished.
Proof.
  intros Hpath Hlimit Hmax.
  induction fuel as [|fuel IH];
    intros folderID parentPath currentDepth files s Hlow Hfuel Hdepth; [lia|].
  cbn [listFilesRecursive].
  destruct (bool_decide (maxDepth ≠ -1)%Z && bool_decide (maxDepth < currentDepth)%Z)
    eqn:Hdeep; [done|].
  apply andb_false_iff in Hdeep as [Hd%bool_decide_eq_false|Hd%bool_decide_eq_false];
    [done|].
  destruct (bool_decide (0 < maxResults)%Z && bool_decide (maxResults ≤ len files)%Z);
    [done|].
  destruct (RepeatPanics "  " currentDepth); [done|].
  destruct (filesList _ s) as [[rFiles|err] s1]; [|done].
  pose proof (listedItems_ends pathFuel currentDepth rFiles s1 Hpath) as Hitems.
  destruct (listedItems pathFuel currentDepth rFiles s1) as [[items| | |] s2];
    cbn [fst] in *; try done.
  apply processItems_ends. intros id path files' s'.
  rewrite wrapInt_small by (unfold maxInt in *; lia).
  apply IH; lia.
Qed.

End DepthFacts.

(** X10: with a depth limit ([maxDepth] other than -1 and below the
    largest [int]) the search comes to an end, whatever the service
    answers: [listFilesRecursive] returns, fails or panics within
    [maxDepth - currentDepth + 2] nested calls, provided that the
    look-ups of [getFullPath] come to an end. *)
Theorem X10_depth_limit_ends_the_search `{RegexpEngine} `{Environment}
    (fuel pathFuel : nat) (folderID parentPath : string) (pattern : Regexp)
    (maxDepth currentDepth maxResults : Z) (files : list FileInfo) (s : State) :
  (∀ id names s', (getFullPath pathFuel id names s').1 ≠ Unfinished) →
  (maxDepth ≠ -1)%Z → (maxDepth < maxInt)%Z → (- 2 ^ 63 ≤ currentDepth)%Z →
  0 < fuel → (maxDepth - currentDepth + 1 < Z.of_nat fuel)%Z →
  (listFilesRecursive fuel pathFuel folderID parentPath pattern maxDepth currentDepth
     maxResults files s).1.1 ≠ Unfinished.
Proof. intros. by apply listFilesRecursive_ends. Qed.

Lemma X10_witness :
  (∀ id names s', (getFullPath (env := nestedFolders) 1 id names s').1 ≠ Unfinished) ∧
  (2 ≠ -1)%Z ∧ (2 < maxInt)%Z ∧ (- 2 ^ 63 ≤ 0)%Z ∧ 0 < 4 ∧ (2 - 0 + 1 < Z.of_nat 4)%Z ∧
  (listFilesRecursive (engine := fragment) (env := nestedFolders) 4 1 "root" "" reTranscript
     2 0 0 [] (start (H := nestedFolders) ())).1.1 ≠ Unfinished.
Proof.
  assert (∀ id names s', (getFullPath (env := nestedFolders) 1 id names s').1 ≠ Unfinished)
    as Hpath by done.
  split_and!; [done | done | done | done | lia | done |].
  apply (X10_depth_limit_ends_the_search (H := fragment) (H0 := nestedFolders));
    [done | done | done | done | lia | done].
Defined.

(** Without a depth limit the search of the same service, in which every
    folder holds a folder, does not come to an end. *)
Example no_depth_limit_no_end :
  (listFilesRecursive (engine := fragment) (env := nestedFolders) 50 1 "root" "" reTranscript
     (-1) 0 0 [] (start (H := nestedFolders) ())).1.1 = Unfinished.
Proof. vm_compute; reflexivity. Qed.

(** ** What [ListFiles] returns *)

Section ListFacts.

Context `{engine : RegexpEngine} `{env : Environment}.

Lemma len_sortSlice (sorter : SliceSorter) (l : list FileInfo) : len (sorter l) = len l.
Proof. unfold len. by rewrite (sortSlice_perm sorter l). Qed.

Lemma ListFiles_reads (sorter : SliceSorter) (fuel pathFuel : nat)
    (folderID pattern : string) (maxDepth maxResults : Z) (s : State) :
  madeOnly readsDrive s
    (ListFiles sorter fuel pathFuel folderID pattern maxDepth maxResults s).2.
Proof.
  unfold ListFiles. destruct (Compile pattern) as [regex|err]; [|apply madeOnly_refl].
  assert (∀ root s1, madeOnly readsDrive s s1 →
            madeOnly readsDrive s
              (match listFilesRecursive fuel pathFuel root "" regex maxDepth 0 maxResults
                       [] s1 with
               | (Return _, files, s2) =>
                   let files := sorter files in
                   let files :=
                     if bool_decide (0 < maxResults)%Z
                        && bool_decide (maxResults < len files)%Z
                     then take (Z.to_nat maxResults) files
                     else files in
                   (Return files, s2)
               | (Fail err, _, s2) => (Fail err, s2)
               | (Crashed, _, s2) => (Crashed, s2)
               | (Unfinished, _, s2) => (Unfinished, s2)
               end).2) as Hsearch.
  { intros root s1 Hs1.
    pose proof (listFilesRecursive_collects pathFuel regex maxDepth maxResults fuel root ""
                  0%Z [] s1) as (_ & _ & Hcalls).
    destruct (listFilesRecursive fuel pathFuel root "" regex maxDepth 0 maxResults [] s1)
      as [[[[]| | |] files] s2]; cbn in *; by eapply madeOnly_trans. }
  destruct (bool_decide (folderID = "")); [|apply Hsearch, madeOnly_refl].
  pose proof (filesGet_reads {| drivev3.FileId := "root"; drivev3.GetFields := "id";
                                drivev3.GetSupportsAllDrives := false |} s) as Hget.
  destruct (filesGet _ s) as [[root|err] s1]; cbn in *; [by apply Hsearch | done].
Qed.

Lemma ListFiles_Return (sorter : SliceSorter) (fuel pathFuel : nat)
    (folderID pattern : string) (maxDepth maxResults : Z) (s s' : State)
    (files : list FileInfo) :
  ListFiles sorter fuel pathFuel folderID pattern maxDepth maxResults s
    = (Return files, s') →
  ∃ regex root s1,
    Compile pattern = inl regex
    ∧ (folderID ≠ "" → root = folderID ∧ s1 = s)
    ∧ files = sorter (listFilesRecursive fuel pathFuel root "" regex maxDepth 0
                        maxResults [] s1).1.2.
Proof.
  unfold ListFiles. destruct (Compile pattern) as [regex|err]; [|done].
  assert (∀ root s1,
            match listFilesRecursive fuel pathFuel root "" regex maxDepth 0 maxResults
                    [] s1 with
            | (Return _, files, s2) =>
                let files := sorter files in
                let files :=
                  if bool_decide (0 < maxResults)%Z
                     && bool_decide (maxResults < len files)%Z
                  then take (Z.to_nat maxResults) files
                  else files in
                (Return files, s2)
            | (Fail err, _, s2) => (Fail err, s2)
            | (Crashed, _, s2) => (Crashed, s2)
            | (Unfinished, _, s2) => (Unfinished, s2)
            end = (Return files, s') →
            files = sorter (listFilesRecursive fuel pathFuel root "" regex maxDepth 0
                              maxResults [] s1).1.2) as Hsearch.
  { intros root s1.
    pose proof (listFilesRecursive_collects pathFuel regex maxDepth maxResults fuel root ""
                  0%Z [] s1) as (_ & Hbound & _).
    destruct (listFilesRecursive fuel pathFuel root "" regex maxDepth 0 maxResults [] s1)
      as [[[[]| | |] found] s2]; cbn [fst snd] in *; try done.
    cbv zeta. destruct (bool_decide (0 < maxResults)%Z) eqn:Hpos; cbn [andb].
    - apply bool_decide_eq_true in Hpos. specialize (Hbound Hpos).
      rewrite len_sortSlice, bool_decide_eq_false_2
        by (change (len (@nil FileInfo)) with 0%Z in Hbound; lia).
      congruence.
    - congruence. }
  destruct (bool_decide (folderID = "")) eqn:Hroot.
  - apply bool_decide_eq_true in Hroot.
    destruct (filesGet _ s) as [[root|err'] s1]; [|done].
    intros Hfiles%Hsearch. by exists regex, (drivev3.Id root), s1.
  - intros Hfiles%Hsearch. by exists regex, folderID, s.
Qed.

End ListFacts.

(** X11: when [ListFiles] returns a list, it is the whole slice that the
    search collected, sorted: the cut to [maxResults] entries after the
    sort never drops an entry, since the search has stopped at
    [maxResults].  So every file of the list has a name that the pattern
    matches and is not a folder, no file is followed by a newer one, and
    with a positive [maxResults] there are at most [maxResults] files:
    the first ones found, not the newest of the folder. *)
Theorem X11_ListFiles_returns_the_sorted_search `{RegexpEngine} `{Environment}
    (sorter : SliceSorter) (fuel pathFuel : nat) (folderID pattern : string)
    (maxDepth maxResults : Z) (s s' : State) (files : list FileInfo) :
  ListFiles sorter fuel pathFuel folderID pattern maxDepth maxResults s
    = (Return files, s') →
  ∃ regex root s1,
    Compile pattern = inl regex
    ∧ (folderID ≠ "" → root = folderID ∧ s1 = s)
    ∧ files = sorter (listFilesRecursive fuel pathFuel root "" regex maxDepth 0
                        maxResults [] s1).1.2
    ∧ Forall (matched regex) files
    ∧ StronglySorted (λ a b, newer b a = false) files
    ∧ ((0 < maxResults)%Z → (len files ≤ maxResults)%Z).
Proof.
  intros (regex & root & s1 & Hcompile & Hroot & ->)%ListFiles_Return.
  exists regex, root, s1. split_and!; [done | done | done | | |].
  - destruct (listFilesRecursive_collects pathFuel regex maxDepth maxResults fuel root ""
                0%Z [] s1) as ((added & -> & Hall) & _ & _).
    by rewrite (sortSlice_perm sorter).
  - apply sortSlice_sorted.
  - intros Hpos.
    destruct (listFilesRecursive_collects pathFuel regex maxDepth maxResults fuel root ""
                0%Z [] s1) as (_ & Hbound & _).
    specialize (Hbound Hpos). rewrite len_sortSlice.
    change (len (@nil FileInfo)) with 0%Z in Hbound. lia.
Qed.

Lemma X11_witness :
  ListFiles (engine := fragment) (env := twoTranscripts) mergeSorter 3 3 "root" "TRANSCRIPT"
    (-1) 1 (start (H := twoTranscripts) ()) = (Return oneTranscript, afterOneListing) ∧
  ∃ regex root s1,
    Compile (RegexpEngine := fragment) "TRANSCRIPT" = inl regex
    ∧ ("root" ≠ "" → root = "root" ∧ s1 = start (H := twoTranscripts) ())
    ∧ oneTranscript
      = mergeSorter (listFilesRecursive (engine := fragment) (env := twoTranscripts)
                       3 3 root "" regex (-1) 0 1 [] s1).1.2
    ∧ Forall (matched (H := fragment) regex) oneTranscript
    ∧ StronglySorted (λ a b, newer b a = false) oneTranscript
    ∧ ((0 < 1)%Z → (len oneTranscript ≤ 1)%Z).
Proof.
  assert (ListFiles (engine := fragment) (env := twoTranscripts) mergeSorter 3 3 "root"
            "TRANSCRIPT" (-1) 1 (start (H := twoTranscripts) ())
          = (Return oneTranscript, afterOneListing)) as Hrun by (vm_compute; reflexivity).
  split; [exact Hrun|].
  exact (X11_ListFiles_returns_the_sorted_search (H := fragment) (H0 := twoTranscripts)
           mergeSorter 3 3 "root" "TRANSCRIPT" (-1) 1 _ _ _ Hrun).
Defined.

(** ** The full path of a file *)

(** X12: [getFullPath] fails exactly when the look-up of the file itself
    fails, and then with the error of that look-up: an error of the
    look-up of a parent, at any level, never comes out. *)
Theorem X12_getFullPath_fails_only_for_the_file `{Environment}
    (fuel : nat) (fileID err : string) (folderNames : gmap string string) (s : State) :
  0 < fuel →
  (getFullPath fuel fileID folderNames s).1 = Fail err
  ↔ (filesGet {| drivev3.FileId := fileID;
                 drivev3.GetFields := "id, name, parents";
                 drivev3.GetSupportsAllDrives := true |} s).1 = inr err.
Proof.
  destruct fuel as [|fuel]; [lia|]. intros _. cbn [getFullPath].
  destruct (filesGet _ s) as [[file|err'] s1]; cbn [fst].
  - split; [|done]. destruct (drivev3.Parents file) as [|parent rest]; [done|].
    by destruct (getFullPath fuel parent folderNames s1) as [[| | |] s2].
  - split; congruence.
Qed.

Lemma X12_witness :
  0 < 2 ∧
  ((getFullPath (env := orphanFile) 2 "f1" ∅ (start (H := orphanFile) ())).1
     = Fail "notFound"
   ↔ (filesGet (env := orphanFile)
        {| drivev3.FileId := "f1";
           drivev3.GetFields := "id, name, parents";
           drivev3.GetSupportsAllDrives := true |} (start (H := orphanFile) ())).1
     = inr "notFound").
Proof.
  split; [lia|].
  apply (X12_getFullPath_fails_only_for_the_file (H := orphanFile)). lia.
Defined.

(** The parent of [transcriptFile] is not known to [orphanFile]: the path
    is the name alone. *)
Example getFullPath_orphan :
  (getFullPath (env := orphanFile) 2 "f1" ∅ (start (H := orphanFile) ())).1
  = Return "audio.TRANSCRIPT".
Proof. vm_compute; reflexivity. Qed.

(** ** Downloads *)

Section DownloadFacts.

Context `{env : Environment}.

Lemma calls_record (c : Call) (w : World) (s : State) :
  calls (record c w s) = calls s ++ [c].
Proof. done. Qed.

(** What one [DownloadFile] asks for: at most the download of the file
    and the creation of its output path, and both when it succeeds. *)
Lemma DownloadFile_calls (fileInfo : FileInfo) (outputDir : string) (s : State) :
  ∃ new,
    calls (DownloadFile fileInfo outputDir s).2 = calls s ++ new
    ∧ downloadsOf new `prefix_of` [ID fileInfo]
    ∧ createdPaths new `prefix_of` [Join [outputDir; Path fileInfo]]
    ∧ Forall (λ c, readsDrive c = false) new
    ∧ ((DownloadFile fileInfo outputDir s).1 = None →
       downloadsOf new = [ID fileInfo]
       ∧ createdPaths new = [Join [outputDir; Path fileInfo]]).
Proof.
  unfold DownloadFile, mkdirAll, download, create, copy, closeBody, closeFile.
  set (outPath := Join [outputDir; Path fileInfo]).
  destruct (MkdirAll (Dir outPath) 493 (world s)) as [[err|] w1]; cbn.
  { exists [CallMkdirAll (Dir outPath) 493]. split_and!; try done.
    - apply prefix_nil.
    - apply prefix_nil.
    - by repeat constructor. }
  destruct (FilesGetDownload (ID fileInfo) w1) as [[body|err] w2]; cbn.
  2:{ exists [CallMkdirAll (Dir outPath) 493; CallDownload (ID fileInfo)].
      split_and!; try done.
      - by rewrite <-(assoc_L (++)).
      - apply prefix_nil.
      - by repeat constructor. }
  destruct (Create outPath w2) as [[outFile|err] w3]; cbn.
  2:{ exists [CallMkdirAll (Dir outPath) 493; CallDownload (ID fileInfo);
              CallCreate outPath; CallCloseBody].
      split_and!; try done.
      - by rewrite <-!(assoc_L (++)).
      - by repeat constructor. }
  exists [CallMkdirAll (Dir outPath) 493; CallDownload (ID fileInfo);
          CallCreate outPath; CallCopy; CallCloseFile; CallCloseBody].
  destruct (Copy outFile body w3) as [[err|] w4]; cbn;
    (split_and!; [by rewrite <-!(assoc_L (++)) | done | done
                 | by repeat constructor | done]).
Qed.

Lemma DownloadFiles_calls (outputDir : string) : ∀ (files : list FileInfo) (s : State),
  ∃ new,
    calls (DownloadFiles files outputDir s).2 = calls s ++ new
    ∧ downloadsOf new `prefix_of` (ID <$> files)
    ∧ createdPaths new `prefix_of` ((λ f, Join [outputDir; Path f]) <$> files)
    ∧ Forall (λ c, readsDrive c = false) new
    ∧ ((DownloadFiles files outputDir s).1 = None →
       downloadsOf new = ID <$> files
       ∧ createdPaths new = (λ f, Join [outputDir; Path f]) <$> files).
Proof.
  induction files as [|file rest IH]; intros s; cbn [DownloadFiles].
  { exists []. rewrite app_nil_r. by split_and!. }
  destruct (DownloadFile_calls file outputDir s)
    as (new1 & Hcalls1 & Hdown1 & Hmade1 & Hwrites1 & Hdone1).
  destruct (DownloadFile file outputDir s) as [[err|] s1]; cbn [fst snd] in *.
  - exists new1. split_and!; [done | | | done | done].
    + etrans; [exact Hdown1|]. apply prefix_cons, prefix_nil.
    + etrans; [exact Hmade1|]. apply prefix_cons, prefix_nil.
  - destruct (Hdone1 eq_refl) as [Hd Hc].
    destruct (IH s1) as (new2 & Hcalls2 & Hdown2 & Hmade2 & Hwrites2 & Hdone2).
    exists (new1 ++ new2). unfold downloadsOf, createdPaths in *.
    rewrite !omap_app, Hd, Hc. split_and!.
    + by rewrite Hcalls2, Hcalls1, (assoc_L (++)).
    + by apply prefix_cons.
    + by apply prefix_cons.
    + by apply Forall_app.
    + intros [-> ->]%Hdone2. done.
Qed.

Lemma DownloadFiles_app (outputDir : string) (files2 : list FileInfo) :
  ∀ (files1 : list FileInfo) (s : State),
    DownloadFiles (files1 ++ files2) outputDir s
    = match DownloadFiles files1 outputDir s with
      | (None, s1) => DownloadFiles files2 outputDir s1
      | failed => failed
      end.
Proof.
  induction files1 as [|file rest IH]; intros s; cbn [DownloadFiles app]; [done|].
  by destruct (DownloadFile file outputDir s) as [[err|] s1].
Qed.

End DownloadFacts.

(** X13: [DownloadFiles] stops at the first file whose download fails:
    when the files before it are saved and [DownloadFile] fails for it,
    the error names its path and wraps the error of [DownloadFile], and
    the state is the one that [DownloadFile] left: nothing is asked for
    the files after it. *)
Theorem X13_DownloadFiles_stops_at_the_first_failure `{Environment}
    (before after : list FileInfo) (file : FileInfo) (outputDir err : string)
    (s s1 s2 : State) :
  DownloadFiles before outputDir s = (None, s1) →
  DownloadFile file outputDir s1 = (Some err, s2) →
  DownloadFiles (before ++ file :: after) outputDir s
  = (Some ("error downloading " +:+ Path file +:+ ": " +:+ err), s2).
Proof.
  intros Hbefore Hfile. rewrite DownloadFiles_app, Hbefore.
  cbn [DownloadFiles]. by rewrite Hfile.
Qed.

Lemma X13_witness :
  DownloadFiles (env := secondBroken) [firstEntry] "out" (start (H := secondBroken) ())
    = (None, (DownloadFiles (env := secondBroken) [firstEntry] "out"
                (start (H := secondBroken) ())).2) ∧
  DownloadFile (env := secondBroken) secondEntry "out"
    (DownloadFiles (env := secondBroken) [firstEntry] "out"
       (start (H := secondBroken) ())).2
    = (Some "unable to download file: downloadFailed",
       (DownloadFile (env := secondBroken) secondEntry "out"
          (DownloadFiles (env := secondBroken) [firstEntry] "out"
             (start (H := secondBroken) ())).2).2) ∧
  DownloadFiles (env := secondBroken) ([firstEntry] ++ secondEntry :: [firstEntry]) "out"
    (start (H := secondBroken) ())
  = (Some ("error downloading " +:+ Path secondEntry +:+ ": "
           +:+ "unable to download file: downloadFailed"),
     (DownloadFile (env := secondBroken) secondEntry "out"
        (DownloadFiles (env := secondBroken) [firstEntry] "out"
           (start (H := secondBroken) ())).2).2).
Proof.
  split_and!; [vm_compute; reflexivity | vm_compute; reflexivity |].
  apply (X13_DownloadFiles_stops_at_the_first_failure (H := secondBroken)
           [firstEntry] [firstEntry] secondEntry "out"
           "unable to download file: downloadFailed" (start (H := secondBroken) ())
           (DownloadFiles (env := secondBroken) [firstEntry] "out"
              (start (H := secondBroken) ())).2);
    vm_compute; reflexivity.
Defined.

(** X14: [DownloadFiles] asks for the downloads of the files in the order
    of the list and creates, for each, the file at its [Path] under the
    output directory; it never lists or looks up anything.  However it
    ends, the downloads asked for and the files created are those of the
    first files of the list; when it succeeds, they are those of all the
    files, each once. *)
Theorem X14_DownloadFiles_saves_each_file_under_its_path `{Environment}
    (files : list FileInfo) (outputDir : string) (s : State) :
  ∃ new,
    calls (DownloadFiles files outputDir s).2 = calls s ++ new
    ∧ downloadsOf new `prefix_of` (ID <$> files)
    ∧ createdPaths new `prefix_of` ((λ f, Join [outputDir; Path f]) <$> files)
    ∧ Forall (λ c, readsDrive c = false) new
    ∧ ((DownloadFiles files outputDir s).1 = None →
       downloadsOf new = ID <$> files
       ∧ createdPaths new = (λ f, Join [outputDir; Path f]) <$> files).
Proof. apply DownloadFiles_calls. Qed.

(** ** The command *)

Section MainFacts.

Context `{engine : RegexpEngine} `{env : Environment}.

Variables (sorter : SliceSorter) (ords : nat → RangeOrder) (fuel pathFuel : nat).
Variable f : flags.Flags.

(** [main] from the call of [NewDriveService] on. *)
Let served (pathTransformer : option PathTransformer) (s : State) : Ending * State :=
  match NewDriveService (flags.credentials f) (flags.verbose f) s with
  | (Some _, s1) => (Exit 1, s1)
  | (None, s1) =>
      match ListFiles sorter fuel pathFuel (flags.folderID f) (flags.pattern f)
              (flags.maxDepth f) (flags.maxResults f) s1 with
      | (Fail _, s2) => (Exit 1, s2)
      | (Crashed, s2) => (Panics, s2)
      | (Unfinished, s2) => (Runs, s2)
      | (Return files, s2) =>
          if flags.dryRun f then (preview ords pathTransformer 0 files, s2)
          else
            match transformFilePaths ords pathTransformer files with
            | Panic | Err _ => (Panics, s2)
            | Ok files' =>
                match DownloadFiles files' (flags.outputDir f) s2 with
                | (Some _, s3) => (Exit 1, s3)
                | (None, s3) => (Exit 0, s3)
                end
            end
      end
  end.

(** The three ways of [main] through the checks of the flags. *)
Lemma main_cases (s : State) :
  (¬ acceptsFlags f ∧ main sorter ords fuel pathFuel f s = (Exit 1, s))
  ∨ (flags.pattern f ≠ "" ∧ flags.pathPattern f = "" ∧ flags.pathFormat f = ""
     ∧ main sorter ords fuel pathFuel f s = served None s)
  ∨ (∃ t, flags.pattern f ≠ "" ∧ flags.pathPattern f ≠ ""
          ∧ NewPathTransformer (flags.pathPattern f) (flags.pathFormat f) = Ok t
          ∧ main sorter ords fuel pathFuel f s = served (Some t) s).
Proof.
  unfold main, acceptsFlags.
  destruct (bool_decide (flags.pattern f = "")) eqn:Hpattern.
  { apply bool_decide_eq_true in Hpattern. left. split; [|done]. by intros [? _]. }
  apply bool_decide_eq_false in Hpattern.
  assert (∀ p q t, (p = "" ∨ q = "") → NewPathTransformer p q ≠ Ok t) as Hempty.
  { intros p q t Hpq. unfold NewPathTransformer.
    destruct Hpq as [->| ->]; cbn; [done|]. by rewrite orb_true_r. }
  destruct (bool_decide (flags.pathPattern f = "")) eqn:Hpath;
    destruct (bool_decide (flags.pathFormat f = "")) eqn:Hformat; cbn [eqb negb];
    [apply bool_decide_eq_true in Hpath | apply bool_decide_eq_true in Hpath
    | apply bool_decide_eq_false in Hpath | apply bool_decide_eq_false in Hpath];
    [apply bool_decide_eq_true in Hformat | apply bool_decide_eq_false in Hformat
    | apply bool_decide_eq_true in Hformat | apply bool_decide_eq_false in Hformat].
  - right; left. by rewrite bool_decide_eq_false_2 by (by intros []).
  - left. split; [|done]. intros [_ [[_ ?]|[t Ht]]]; [done|].
    eapply Hempty; [|exact Ht]. by left.
  - left. split; [|done]. intros [_ [[? _]|[t Ht]]]; [done|].
    eapply Hempty; [|exact Ht]. by right.
  - rewrite bool_decide_eq_true_2 by done.
    destruct (NewPathTransformer (flags.pathPattern f) (flags.pathFormat f))
      as [t|e|] eqn:Hnew.
    + right; right. by exists t.
    + left. split; [|done]. by intros [_ [[? _]|[t Ht]]].
    + exfalso. revert Hnew. unfold NewPathTransformer.
      destruct (_ || _); [done|]. destruct (Compile _); [|done].
      by destruct (negb _).
Qed.

Lemma preview_ends (pathTransformer : option PathTransformer) :
  ∀ (files : list FileInfo) (i : nat), preview ords pathTransformer i files = Exit 0.
Proof.
  induction files as [|file rest IH]; intros i; cbn [preview]; [done|].
  destruct pathTransformer as [t|]; [|apply IH].
  pose proof (Transform_no_panic (ords i) t (Path file)) as Hpanic.
  destruct (Transform (ords i) t (Path file)); [apply IH | apply IH | done].
Qed.

Lemma transformFilePaths_Ok (pathTransformer : option PathTransformer)
    (files : list FileInfo) :
  ∃ files', transformFilePaths ords pathTransformer files = Ok files'
            ∧ ID <$> files' = ID <$> files.
Proof.
  destruct pathTransformer as [t|]; [|by exists files].
  rewrite transformFilePaths_spec. eexists. split; [done|].
  apply list_eq. intros i. rewrite !list_lookup_fmap, list_lookup_imap.
  destruct (files !! i) as [file|]; [|done]. cbn. f_equal.
  unfold finalPath. by destruct (Transform (ords i) t (Path file)).
Qed.

(** The calls of [main] once the flags are accepted. *)
Lemma served_calls (pathTransformer : option PathTransformer) (s : State) :
  ∃ more,
    calls (served pathTransformer s).2
      = calls s ++ CallNewService (flags.credentials f) :: more
    ∧ (flags.dryRun f = true → Forall (λ c, dryRunCall c = true) more).
Proof.
  unfold served, NewDriveService, newService.
  destruct (NewService (flags.credentials f) (world s)) as [[err|] w1]; cbn [snd].
  { exists []. by split. }
  set (s1 := record (CallNewService (flags.credentials f)) w1 s).
  assert (calls s1 = calls s ++ [CallNewService (flags.credentials f)]) as calls_record
    by done.
  clearbody s1.
  assert (∀ c, readsDrive c = true → dryRunCall c = true) as Hreads
    by (by intros []).
  destruct (ListFiles_reads sorter fuel pathFuel (flags.folderID f) (flags.pattern f)
              (flags.maxDepth f) (flags.maxResults f) s1) as (new & Hcalls & Hnew).
  eapply Forall_impl in Hnew; [|exact Hreads].
  destruct (ListFiles sorter fuel pathFuel (flags.folderID f) (flags.pattern f)
              (flags.maxDepth f) (flags.maxResults f) s1) as [[files| | |] s2];
    cbn [snd] in *;
    try (exists new; split; [by rewrite Hcalls, calls_record, <-(assoc_L (++))|done]).
  destruct (flags.dryRun f); cbn [snd].
  { exists new. split; [by rewrite Hcalls, calls_record, <-(assoc_L (++))|done]. }
  destruct (transformFilePaths_Ok pathTransformer files) as (files' & -> & _).
  destruct (DownloadFiles_calls (flags.outputDir f) files' s2) as (new' & Hcalls' & _).
  exists (new ++ new'). split; [|done].
  destruct (DownloadFiles files' (flags.outputDir f) s2) as [[err|] s3]; cbn [snd] in *;
    by rewrite Hcalls', Hcalls, calls_record, <-!(assoc_L (++)).
Qed.

(** A panic of [main] is one of [ListFiles]. *)
Lemma served_Panics (pathTransformer : option PathTransformer) (s : State) :
  (served pathTransformer s).1 = Panics →
  ∃ s1,
    (ListFiles sorter fuel pathFuel (flags.folderID f) (flags.pattern f)
       (flags.maxDepth f) (flags.maxResults f) s1).1 = Crashed.
Proof.
  unfold served.
  destruct (NewDriveService (flags.credentials f) (flags.verbose f) s) as [[err|] s1];
    [done|].
  destruct (ListFiles sorter fuel pathFuel (flags.folderID f) (flags.pattern f)
              (flags.maxDepth f) (flags.maxResults f) s1) as [[files| | |] s2] eqn:Hlist;
    cbn [fst]; try done.
  - destruct (flags.dryRun f); cbn [fst]; [by rewrite preview_ends|].
    destruct (transformFilePaths_Ok pathTransformer files) as (files' & -> & _).
    by destruct (DownloadFiles files' (flags.outputDir f) s2) as [[err|] s3].
  - intros _. exists s1. by rewrite Hlist.
Qed.


End MainFacts.

(** X15: [main] checks the flags before anything else.  When the pattern
    is empty, when only one of the two path flags is given, or when they
    make no transformer, it ends with status 1 and has made no call;
    otherwise its first call is [drive.NewService] with the credentials
    file. *)
Theorem X15_main_checks_the_flags_first `{RegexpEngine} `{Environment}
    (sorter : SliceSorter) (ords : nat → RangeOrder) (fuel pathFuel : nat)
    (f : flags.Flags) (s : State) :
  (acceptsFlags f
   ∧ ∃ more, calls (main sorter ords fuel pathFuel f s).2
             = calls s ++ CallNewService (flags.credentials f) :: more)
  ∨ (¬ acceptsFlags f ∧ main sorter ords fuel pathFuel f s = (Exit 1, s)).
Proof.
  destruct (main_cases sorter ords fuel pathFuel f s)
    as [Hno|[(Hpattern & Hpath & Hformat & ->)|(t & Hpattern & Hpath & Hnew & ->)]].
  - by right.
  - left. split; [split; [done | by left]|].
    destruct (served_calls sorter ords fuel pathFuel f None s) as (more & Hcalls & _).
    by exists more.
  - left. split; [split; [done | right; by exists t]|].
    destruct (served_calls sorter ords fuel pathFuel f (Some t) s) as (more & Hcalls & _).
    by exists more.
Qed.

(** X16: a dry run downloads nothing and writes nothing: every call that
    [main] makes with the flag [dry-run] is [drive.NewService], a
    [Files.List] or a [Files.Get]. *)
Theorem X16_dry_run_only_reads `{RegexpEngine} `{Environment}
    (sorter : SliceSorter) (ords : nat → RangeOrder) (fuel pathFuel : nat)
    (f : flags.Flags) (s : State) :
  flags.dryRun f = true →
  madeOnly dryRunCall s (main sorter ords fuel pathFuel f s).2.
Proof.
  intros Hdry.
  destruct (main_cases sorter ords fuel pathFuel f s)
    as [[_ ->]|[(_ & _ & _ & ->)|(t & _ & _ & _ & ->)]].
  - apply madeOnly_refl.
  - destruct (served_calls sorter ords fuel pathFuel f None s) as (more & Hcalls & Hmore).
    exists (CallNewService (flags.credentials f) :: more). split; [done|].
    constructor; [done | by apply Hmore].
  - destruct (served_calls sorter ords fuel pathFuel f (Some t) s)
      as (more & Hcalls & Hmore).
    exists (CallNewService (flags.credentials f) :: more). split; [done|].
    constructor; [done | by apply Hmore].
Qed.

Lemma X16_witness :
  flags.dryRun (transcriptFlags true) = true ∧
  madeOnly (H := twoTranscripts) dryRunCall (start (H := twoTranscripts) ())
    (main (engine := fragment) (env := twoTranscripts) mergeSorter (λ _, stored) 3 3
       (transcriptFlags true) (start (H := twoTranscripts) ())).2.
Proof.
  split; [reflexivity|].
  apply (X16_dry_run_only_reads (H := fragment) (H0 := twoTranscripts)). reflexivity.
Defined.



(** X18: [main] panics only when [ListFiles] does: making the
    transformer, the preview of a dry run and the loop over [files[i]]
    that transforms the paths never panic. *)
Theorem X18_main_panics_only_in_ListFiles `{RegexpEngine} `{Environment}
    (sorter : SliceSorter) (ords : nat → RangeOrder) (fuel pathFuel : nat)
    (f : flags.Flags) (s : State) :
  (main sorter ords fuel pathFuel f s).1 = Panics →
  ∃ s1,
    (ListFiles sorter fuel pathFuel (flags.folderID f) (flags.pattern f)
       (flags.maxDepth f) (flags.maxResults f) s1).1 = Crashed.
Proof.
  destruct (main_cases sorter ords fuel pathFuel f s)
    as [[_ ->]|[(_ & _ & _ & ->)|(t & _ & _ & _ & ->)]].
  - done.
  - apply served_Panics.
  - apply served_Panics.
Qed.

Lemma X18_witness :
  (main (engine := fragment) (env := failingSearch) mergeSorter (λ _, stored) 3 3
     (transcriptFlags false) (start (H := failingSearch) ())).1 = Panics ∧
  ∃ s1,
    (ListFiles (engine := fragment) (env := failingSearch) mergeSorter 3 3
       (flags.folderID (transcriptFlags false)) (flags.pattern (transcriptFlags false))
       (flags.maxDepth (transcriptFlags false)) (flags.maxResults (transcriptFlags false))
       s1).1 = Crashed.
Proof.
  assert ((main (engine := fragment) (env := failingSearch) mergeSorter (λ _, stored) 3 3
             (transcriptFlags false) (start (H := failingSearch) ())).1 = Panics) as Hmain
    by (vm_compute; reflexivity).
  split; [exact Hmain|].
  exact (X18_main_panics_only_in_ListFiles (H := fragment) (H0 := failingSearch)
           mergeSorter (λ _, stored) 3 3 (transcriptFlags false) _ Hmain).
Defined.
